(** * BLE motion detection: packet decoders and motion classifier

    A shallow embedding of [ble_motion_detection.py]: the two packet
    decoders [parse_accelerometer_data] and [parse_ibeacon_data], the
    classifier [detect_motion] and the per-packet dispatch of
    [scan_and_detect], followed by the properties of the specification
    that hold (or fail) on them.

    Exceptions are modelled by a result type and [try]/[except] by
    [try_except]; the lines the decoders print when they give up are
    console text only and are left out, the lines the dispatch prints
    are kept as events. *)

From Stdlib Require Import ZArith NArith Arith Lia Bool List Ascii String.
From Stdlib Require Import Floats Uint63 QArith Reals Lra Qreals.
Import ListNotations.

Local Close Scope Q_scope.
Local Close Scope R_scope.
Local Open Scope string_scope.

(* ================================================================= *)
(** * Python values, exceptions and the try/except discipline *)

(** The dynamically typed values that flow through the program: [None],
    integers, text, and dictionaries with text keys kept in insertion
    order (which is the order [dict.values()] yields them in). *)
#[warnings="-register-all"]
Inductive pyval : Type :=
| PyNone
| PyInt (n : Z)
| PyStr (s : string)
| PyDict (items : list (string * pyval)).

(** The exception classes that can be raised by the modelled code.  All
    of them derive from [Exception]. *)
Inductive exn : Type :=
| ValueError
| IndexError
| AttributeError
| TypeError.

(** A computation either returns a value or raises. *)
Inductive result (A : Type) : Type :=
| Ret (a : A)
| Raise (e : exn).
Arguments Ret {A} a.
Arguments Raise {A} e.

Definition bind {A B : Type} (m : result A) (k : A -> result B) : result B :=
  match m with
  | Ret a => k a
  | Raise e => Raise e
  end.

Notation "x <- m ;; k" := (bind m (fun x => k))
  (at level 61, m at next level, right associativity).

(** [try: m except <classes accepted by catches>: handler]. *)
Definition try_except {A : Type} (m : result A) (catches : exn -> bool)
    (handler : exn -> result A) : result A :=
  match m with
  | Ret a => Ret a
  | Raise e => if catches e then handler e else Raise e
  end.

(** [except (ValueError, IndexError)] *)
Definition is_ValueError_or_IndexError (e : exn) : bool :=
  match e with
  | ValueError | IndexError => true
  | _ => false
  end.

(** [except Exception] *)
Definition is_Exception (e : exn) : bool := true.

(** Truth value of an object, as tested by [if obj:]. *)
Definition truthy (v : pyval) : bool :=
  match v with
  | PyNone => false
  | PyInt n => negb (n =? 0)%Z
  | PyStr s => negb (String.length s =? 0)%nat
  | PyDict items => negb (List.length items =? 0)%nat
  end.

(* ================================================================= *)
(** * Byte strings and text *)

(** A [bytes] object. *)
Definition bytes := list Byte.byte.

Definition byte_val (b : Byte.byte) : Z := Z.of_N (Byte.to_N b).

(** The digit that [bytes.hex] writes for a nibble. *)
Definition hex_digit (n : N) : ascii :=
  match String.get (N.to_nat n) "0123456789abcdef" with
  | Some c => c
  | None => "0"%char
  end.

Definition byte_hex (b : Byte.byte) : string :=
  let n := Byte.to_N b in
  String (hex_digit (n / 16)) (String (hex_digit (n mod 16)) EmptyString).

(** [packet.hex()]: two lowercase digits per byte, high nibble first. *)
Fixpoint bytes_hex (packet : bytes) : string :=
  match packet with
  | [] => EmptyString
  | b :: rest => byte_hex b ++ bytes_hex rest
  end.

(** [s[i:j]] for non-negative literal bounds: out-of-range bounds are
    clipped to the text, never an error. *)
Definition slice (s : string) (i j : nat) : string :=
  String.substring i (j - i) s.

(** The value of one base-16 digit, in either case. *)
Definition hex_digit_value (c : ascii) : option Z :=
  let n := N_of_ascii c in
  if ((48 <=? n) && (n <=? 57))%N then Some (Z.of_N (n - 48))
  else if ((97 <=? n) && (n <=? 102))%N then Some (Z.of_N (n - 87))
  else if ((65 <=? n) && (n <=? 70))%N then Some (Z.of_N (n - 55))
  else None.

Fixpoint int_base16_digits (s : string) (acc : Z) : result Z :=
  match s with
  | EmptyString => Ret acc
  | String c s' =>
      match hex_digit_value c with
      | Some d => int_base16_digits s' (16 * acc + d)%Z
      | None => Raise ValueError
      end
  end.

(** [int(s, 16)] on a run of digits: the empty text and any text with a
    character that is not a base-16 digit raise [ValueError].  (Python
    also accepts a sign, a [0x] prefix, blanks around and underscores
    between digits; the program only ever passes slices of
    [bytes.hex()], which hold lowercase digits only, see
    [slice_bytes_hex_digits].) *)
Definition int_base16 (s : string) : result Z :=
  match s with
  | EmptyString => Raise ValueError
  | _ => int_base16_digits s 0
  end.

(* ================================================================= *)
(** * The accelerometer decoder *)

(** The [if v > 32767: v -= 65536] step. *)
Definition to_signed16 (v : Z) : Z :=
  if (32767 <? v)%Z then (v - 65536)%Z else v.

Definition parse_accelerometer_data_try (packet : bytes) : result pyval :=
  let hex_packet := bytes_hex packet in
  if (String.length hex_packet <? 38)%nat then Raise ValueError
  else
    x <- int_base16 (slice hex_packet 26 30) ;;
    y <- int_base16 (slice hex_packet 30 34) ;;
    z <- int_base16 (slice hex_packet 34 38) ;;
    let x := to_signed16 x in
    let y := to_signed16 y in
    let z := to_signed16 z in
    Ret (PyDict [("x", PyInt x); ("y", PyInt y); ("z", PyInt z)]).

Definition parse_accelerometer_data (packet : bytes) : result pyval :=
  try_except (parse_accelerometer_data_try packet)
    is_ValueError_or_IndexError
    (fun _ => Ret PyNone).

(* ================================================================= *)
(** * The iBeacon decoder *)

Definition parse_ibeacon_data_try (packet : bytes) : result pyval :=
  let hex_packet := bytes_hex packet in
  if (String.length hex_packet <? 56)%nat then Ret PyNone
  else
    let uuid := slice hex_packet 16 48 in
    major <- (if truthy (PyStr (slice hex_packet 48 52))
              then v <- int_base16 (slice hex_packet 48 52) ;; Ret (PyInt v)
              else Ret PyNone) ;;
    minor <- (if truthy (PyStr (slice hex_packet 52 56))
              then v <- int_base16 (slice hex_packet 52 56) ;; Ret (PyInt v)
              else Ret PyNone) ;;
    Ret (PyDict [("uuid", PyStr uuid); ("major", major); ("minor", minor)]).

Definition parse_ibeacon_data (packet : bytes) : result pyval :=
  try_except (parse_ibeacon_data_try packet)
    is_Exception
    (fun _ => Ret PyNone).

(* ================================================================= *)
(** * Byte-level reading of the same fields *)

(** The unsigned big-endian integer held by a run of bytes. *)
Definition be_uint (bs : bytes) : Z :=
  fold_left (fun acc b => (256 * acc + byte_val b)%Z) bs 0%Z.

(** [packet[i:j]] on bytes. *)
Definition bytes_slice (packet : bytes) (i j : nat) : bytes :=
  firstn (j - i) (skipn i packet).

(* ================================================================= *)
(** * The motion classifier *)

(** [MOTION_THRESHOLD = 50] *)
Definition MOTION_THRESHOLD : Z := 50.

(** Conversion of a 64-bit integer to binary64, rounding to nearest even
    (exact below 2^53): the magnitude is converted and the sign put
    back. *)
Definition float_of_Z (n : Z) : float :=
  if (n <? 0)%Z then (- of_uint63 (Uint63.of_Z (- n)))%float
  else of_uint63 (Uint63.of_Z n).

(** [accel_data.values()], as a list: only a dictionary has the method. *)
Definition py_values (v : pyval) : result (list pyval) :=
  match v with
  | PyDict items => Ret (map snd items)
  | _ => Raise AttributeError
  end.

(** The array NumPy builds from a list of Python objects, for the
    purposes of [np.var]: a list of integers becomes a numeric array
    (the empty list an empty one); with any other element the array is
    not numeric and the arithmetic of [np.var] raises [TypeError].
    (Integers outside 64 bits are kept by NumPy as Python objects; the
    decoder produces 16-bit values only.) *)
Fixpoint as_int_array (vals : list pyval) : result (list Z) :=
  match vals with
  | [] => Ret []
  | PyInt n :: rest => ns <- as_int_array rest ;; Ret (n :: ns)
  | _ :: rest => Raise TypeError
  end.

(** [np.add.reduce] over a short one-dimensional binary64 array:
    left to right from the additive identity. *)
Definition float_sum (a : list float) : float :=
  fold_left PrimFloat.add a 0%float.

(** [np.var] with its defaults ([ddof = 0]) on an integer array: the
    sum is taken in binary64 and divided by the element count, the
    deviations from that mean are squared, summed and divided by the
    count again.  On the empty array both divisions are [0/0], a NaN
    (NumPy warns and returns it). *)
Definition np_var_floats (arr : list Z) : float :=
  let rcount := float_of_Z (Z.of_nat (List.length arr)) in
  let arrmean := (float_sum (map float_of_Z arr) / rcount)%float in
  let x := map (fun v => (float_of_Z v - arrmean)%float) arr in
  let x := map (fun d => (d * d)%float) x in
  (float_sum x / rcount)%float.

Definition np_var (vals : list pyval) : result float :=
  arr <- as_int_array vals ;;
  Ret (np_var_floats arr).

Definition detect_motion_try (accel_data : pyval) : result string :=
  vals <- py_values accel_data ;;
  variance <- np_var vals ;;
  Ret (if (float_of_Z MOTION_THRESHOLD <? variance)%float
       then "Moving" else "Stationary").

Definition detect_motion (accel_data : pyval) : result string :=
  try_except (detect_motion_try accel_data)
    is_Exception
    (fun _ => Ret "Error").

(* ================================================================= *)
(** * Per-packet dispatch of [scan_and_detect] *)

(** What the body of the loop over manufacturer data does that can be
    observed from outside: the calls it makes to the three functions
    above and the kind of line it prints. *)
Inductive event : Type :=
| Call_parse_accelerometer_data
| Call_detect_motion
| Call_parse_ibeacon_data
| Print_accelerometer_data (accel_data : pyval)
| Print_motion_status (status : string)
| Print_no_accelerometer_data
| Print_ibeacon_data (ibeacon_data : pyval)
| Print_failed_ibeacon.

(** A computation that records events, and may raise after some. *)
Definition traced (A : Type) : Type := (list event * result A)%type.

Definition tbind {A B : Type} (m : traced A) (k : A -> traced B) : traced B :=
  match m with
  | (tr, Ret a) => let (tr', r) := k a in ((tr ++ tr')%list, r)
  | (tr, Raise e) => (tr, Raise e)
  end.

Definition call {A : Type} (ev : event) (m : result A) : traced A := ([ev], m).
Definition emit (ev : event) : traced unit := ([ev], Ret tt).

Notation "x <~ m ;; k" := (tbind m (fun x => k))
  (at level 61, m at next level, right associativity).

Definition process_packet (value : bytes) : traced unit :=
  accel_data <~ call Call_parse_accelerometer_data
                  (parse_accelerometer_data value) ;;
  if truthy accel_data then
    _ <~ emit (Print_accelerometer_data accel_data) ;;
    status <~ call Call_detect_motion (detect_motion accel_data) ;;
    emit (Print_motion_status status)
  else
    _ <~ emit Print_no_accelerometer_data ;;
    ibeacon_data <~ call Call_parse_ibeacon_data (parse_ibeacon_data value) ;;
    if truthy ibeacon_data then emit (Print_ibeacon_data ibeacon_data)
    else emit Print_failed_ibeacon.

Definition is_call (ev : event) : bool :=
  match ev with
  | Call_parse_accelerometer_data | Call_detect_motion
  | Call_parse_ibeacon_data => true
  | _ => false
  end.

(** The calls made while a packet is processed, in order. *)
Definition calls_of (value : bytes) : list event :=
  filter is_call (fst (process_packet value)).

(** Lookup of a key in a dictionary. *)
Fixpoint dict_get (items : list (string * pyval)) (key : string) : option pyval :=
  match items with
  | [] => None
  | (k, v) :: rest => if String.eqb k key then Some v else dict_get rest key
  end.

(** The dictionary [{"x": x, "y": y, "z": z}]. *)
Definition accel_dict (x y z : Z) : pyval :=
  PyDict [("x", PyInt x); ("y", PyInt y); ("z", PyInt z)].

(** The dictionary [{"uuid": uuid, "major": major, "minor": minor}]. *)
Definition ibeacon_dict (uuid : string) (major minor : pyval) : pyval :=
  PyDict [("uuid", PyStr uuid); ("major", major); ("minor", minor)].

(** ** The decoders as the specification words them

    The specification describes both decoders over named byte offsets,
    with no hexadecimal text in between.  These definitions follow its
    words; the refinement theorem below compares them with the decoders
    of the source above. *)

Record AccelerometerSample : Type :=
  { sample_x : Z; sample_y : Z; sample_z : Z }.

Record IBeaconRecord : Type :=
  { identifier : bytes; major : Z; minor : Z }.

Definition ACCEL_MIN_LENGTH : nat := 19.
Definition ACCEL_X_OFFSET : nat := 13.
Definition ACCEL_Y_OFFSET : nat := 15.
Definition ACCEL_Z_OFFSET : nat := 17.

Definition IBEACON_MIN_LENGTH : nat := 28.
Definition IBEACON_ID_OFFSET : nat := 8.
Definition IBEACON_ID_LENGTH : nat := 16.
Definition IBEACON_MAJOR_OFFSET : nat := 24.
Definition IBEACON_MINOR_OFFSET : nat := 26.

(** Unsigned 16-bit big-endian field at a byte offset. *)
Definition u16_be (packet : bytes) (off : nat) : Z :=
  (256 * byte_val (nth off packet Byte.x00)
   + byte_val (nth (off + 1) packet Byte.x00))%Z.

(** The same field reinterpreted as two's complement. *)
Definition s16_be (packet : bytes) (off : nat) : Z :=
  let raw := u16_be packet off in
  if (32768 <=? raw)%Z then (raw - 65536)%Z else raw.

Definition decode_accelerometer (packet : bytes) : option AccelerometerSample :=
  if (List.length packet <? ACCEL_MIN_LENGTH)%nat then None
  else Some {| sample_x := s16_be packet ACCEL_X_OFFSET;
               sample_y := s16_be packet ACCEL_Y_OFFSET;
               sample_z := s16_be packet ACCEL_Z_OFFSET |}.

Definition decode_ibeacon (packet : bytes) : option IBeaconRecord :=
  if (List.length packet <? IBEACON_MIN_LENGTH)%nat then None
  else Some {| identifier :=
                 bytes_slice packet IBEACON_ID_OFFSET
                   (IBEACON_ID_OFFSET + IBEACON_ID_LENGTH);
               major := u16_be packet IBEACON_MAJOR_OFFSET;
               minor := u16_be packet IBEACON_MINOR_OFFSET |}.

(** How the source represents the two records and "not present". *)
Definition py_of_sample (r : option AccelerometerSample) : pyval :=
  match r with
  | None => PyNone
  | Some s => PyDict [("x", PyInt (sample_x s));
                      ("y", PyInt (sample_y s));
                      ("z", PyInt (sample_z s))]
  end.

Definition py_of_ibeacon (r : option IBeaconRecord) : pyval :=
  match r with
  | None => PyNone
  | Some b => PyDict [("uuid", PyStr (bytes_hex (identifier b)));
                      ("major", PyInt (major b));
                      ("minor", PyInt (minor b))]
  end.

(** Text made of the digits [0-9a-f] only. *)
Fixpoint lower_hex_text (s : string) : bool :=
  match s with
  | EmptyString => true
  | String c s' =>
      let n := N_of_ascii c in
      (((48 <=? n) && (n <=? 57)) || ((97 <=? n) && (n <=? 102)))%N
      && lower_hex_text s'
  end.

(* ================================================================= *)
(** * Exact variance, and binary64 values as real numbers *)

(** The range of one axis of a decoded sample: signed 16 bits. *)
Definition in_int16 (v : Z) : Prop := (-32768 <= v <= 32767)%Z.

(** The population variance of three integers, in exact rational
    arithmetic: the mean of the squared deviations from the mean. *)
Definition population_variance (x y z : Z) : Q :=
  let mean := ((inject_Z x + inject_Z y + inject_Z z) / 3)%Q in
  let dev v := (inject_Z v - mean)%Q in
  ((dev x * dev x + dev y * dev y + dev z * dev z) / 3)%Q.

(** Nine times that variance, an integer. *)
Definition variance_times_9 (x y z : Z) : Z :=
  (3 * (x * x + y * y + z * z) - (x + y + z) * (x + y + z))%Z.

(** Where the quotient [N / D] sits between two consecutive integers:
    the location record the rounding functions of [SpecFloat] work
    with. *)
Definition location_of (N D : Z) : location :=
  if (N mod D =? 0)%Z then loc_Exact
  else loc_Inexact (2 * (N mod D) ?= D)%Z.

(** [N / D] rounded to the nearest integer, ties to even. *)
Definition round_half_even (N D : Z) : Z :=
  round_nearest_even (N / D) (location_of N D).

Definition shr_record_at (N D : Z) : shr_record :=
  shr_record_of_loc (N / D) (location_of N D).

(** Powers of two with integer exponents. *)
Definition bpow (e : Z) : R := powerRZ 2 e.

Definition sign_R (s : bool) : R := if s then (-1)%R else 1%R.

(** The real number a specified float stands for (0 for the
    non-finite ones, which [SFfinite] tells apart). *)
Definition SF2R (f : spec_float) : R :=
  match f with
  | S754_finite s m e => ((if s then -1 else 1) * IZR (Zpos m) * bpow e)%R
  | _ => 0%R
  end.

Definition SFfinite (f : spec_float) : bool :=
  match f with
  | S754_zero _ | S754_finite _ _ _ => true
  | _ => false
  end.

(** [f] is a rounding of the real [r] to binary64: finite, within half
    a unit in the last place (relative error 2^-53, or 2^-1075 in the
    subnormal range), and equal to [r] when [r] is an integer below
    2^53. *)
Definition SF_rounds (r : R) (f : spec_float) : Prop :=
  SFfinite f = true
  /\ (Rabs (SF2R f - r) <= bpow (-53) * Rabs r + bpow (-1075))%R
  /\ (forall K : Z, r = IZR K -> (Rabs r < bpow 53)%R -> SF2R f = r).

(** The same notions on primitive floats. *)
Definition F2R (x : float) : R := SF2R (Prim2SF x).
Definition is_finite (x : float) : bool := SFfinite (Prim2SF x).
Definition rounds (r : R) (x : float) : Prop := SF_rounds r (Prim2SF x).

(** What [SFcompare] says, read on the real values. *)
Definition SFcompare_R_spec (x y : spec_float) : Prop :=
  match SFcompare x y with
  | Some Lt => (SF2R x < SF2R y)%R
  | Some Eq => SF2R x = SF2R y
  | Some Gt => (SF2R y < SF2R x)%R
  | None => False
  end.

(** A bound on one rounding error for a result of magnitude at most
    [B]: [B * 2^-53 + 2^-60]. *)
Definition err (B : R) : R :=
  (B / 9007199254740992 + / 1152921504606846976)%R.

(** ** Sample packets *)

(** Nineteen bytes whose last six are [00 32 FF CE 00 00]. *)
Definition packet_19 : bytes :=
  (repeat Byte.x00 13
   ++ [Byte.x00; Byte.x32; Byte.xff; Byte.xce; Byte.x00; Byte.x00])%list.

(** The first eighteen bytes of it. *)
Definition packet_18 : bytes := firstn 18 packet_19.

(** Twenty-eight bytes: eight of header, the identifier [00 01 .. 0f],
    major [01 02] and minor [ff fe]. *)
Definition packet_28 : bytes :=
  (repeat Byte.x4c 8
   ++ [Byte.x00; Byte.x01; Byte.x02; Byte.x03; Byte.x04; Byte.x05; Byte.x06; Byte.x07;
       Byte.x08; Byte.x09; Byte.x0a; Byte.x0b; Byte.x0c; Byte.x0d; Byte.x0e; Byte.x0f]
   ++ [Byte.x01; Byte.x02; Byte.xff; Byte.xfe])%list.

(** The first twenty-seven bytes of it. *)
Definition packet_27 : bytes := firstn 27 packet_28.

(* ================================================================= *)
(** * The scan loop of [scan_and_detect] *)

(** What the mapping [device.advertisement] (or [device.metadata])
    holds under the key ['manufacturer_data'], when it has the key: a
    dictionary from company identifiers to payloads, in insertion
    order. *)
Definition advertisement_data : Type := option (list (Z * bytes)).

(** A discovered device, as far as the loop looks at it: its name
    (possibly [None]), its address, and the two attributes the loop
    reads, each of which the object may lack. *)
Record device : Type :=
  { device_name : option string;
    device_address : string;
    device_advertisement : option advertisement_data;
    device_metadata : option advertisement_data }.

(** What one run of [scan_and_detect] prints and does; the events of
    the per-packet dispatch are embedded by [Packet_event]. *)
Inductive scan_event : Type :=
| Print_scanning
| Print_no_devices
| Print_found_device (name : option string) (address : string)
| Print_processing_packet (name : string) (hex : string)
| Packet_event (ev : event)
| Print_scan_error (e : exn).

Definition scan_traced (A : Type) : Type := (list scan_event * result A)%type.

Definition sbind {A B : Type} (m : scan_traced A) (k : A -> scan_traced B)
  : scan_traced B :=
  match m with
  | (tr, Ret a) => let (tr', r) := k a in ((tr ++ tr')%list, r)
  | (tr, Raise e) => (tr, Raise e)
  end.

Definition semit (ev : scan_event) : scan_traced unit := ([ev], Ret tt).

Definition lift_result {A : Type} (m : result A) : scan_traced A := ([], m).

Definition lift_packet {A : Type} (m : traced A) : scan_traced A :=
  (map Packet_event (fst m), snd m).

Notation "x <~~ m ;; k" := (sbind m (fun x => k))
  (at level 61, m at next level, right associativity).

(** A [for] loop: the body runs on each element in turn, and an
    exception raised by one run ends the loop. *)
Fixpoint for_each {X : Type} (body : X -> scan_traced unit) (l : list X)
  : scan_traced unit :=
  match l with
  | [] => ([], Ret tt)
  | x :: rest => _ <~~ body x ;; for_each body rest
  end.

(** [device.advertisement if hasattr(device, 'advertisement') else
    device.metadata]: reading [metadata] on an object without it raises
    [AttributeError]. *)
Definition advertisement_of (d : device) : result advertisement_data :=
  match device_advertisement d with
  | Some a => Ret a
  | None =>
      match device_metadata d with
      | Some m => Ret m
      | None => Raise AttributeError
      end
  end.

(** [advertisement.get('manufacturer_data', {})] *)
Definition manufacturer_data_of (a : advertisement_data) : list (Z * bytes) :=
  match a with
  | Some m => m
  | None => []
  end.

(** [device.name or 'Unknown'] *)
Definition name_or_unknown (name : option string) : string :=
  match name with
  | Some s => if truthy (PyStr s) then s else "Unknown"
  | None => "Unknown"
  end.

(** The body of [for key, value in manufacturer_data.items()]. *)
Definition process_manufacturer_entry (d : device) (entry : Z * bytes)
  : scan_traced unit :=
  let value := snd entry in
  _ <~~ semit (Print_processing_packet (name_or_unknown (device_name d))
                 (bytes_hex value)) ;;
  lift_packet (process_packet value).

(** The body of [for device in devices]. *)
Definition process_device (d : device) : scan_traced unit :=
  _ <~~ semit (Print_found_device (device_name d) (device_address d)) ;;
  advertisement <~~ lift_result (advertisement_of d) ;;
  let manufacturer_data := manufacturer_data_of advertisement in
  if negb (List.length manufacturer_data =? 0)%nat
  then for_each (process_manufacturer_entry d) manufacturer_data
  else ([], Ret tt).

(** The [try] block of [scan_and_detect]; [discovered] is what
    [await BleakScanner.discover()] returned or raised. *)
Definition scan_and_detect_try (discovered : result (list device))
  : scan_traced unit :=
  _ <~~ semit Print_scanning ;;
  devices <~~ lift_result discovered ;;
  if (List.length devices =? 0)%nat then semit Print_no_devices
  else for_each process_device devices.

(** [scan_and_detect]: the [except Exception] clause prints the error
    and the function returns. *)
Definition scan_and_detect (discovered : result (list device))
  : scan_traced unit :=
  match scan_and_detect_try discovered with
  | (tr, Ret a) => (tr, Ret a)
  | (tr, Raise e) =>
      if is_Exception e then ((tr ++ [Print_scan_error e])%list, Ret tt)
      else (tr, Raise e)
  end.

(** ** Reading a scan *)

(** The device has one of the two attributes the loop reads. *)
Definition has_advertisement (d : device) : bool :=
  match device_advertisement d, device_metadata d with
  | None, None => false
  | _, _ => true
  end.

(** The payloads the loop finds on a device. *)
Definition device_packets (d : device) : list bytes :=
  match advertisement_of d with
  | Ret a => map snd (manufacturer_data_of a)
  | Raise _ => []
  end.

(** What the loop prints and does for one payload, and for one device
    that has its advertisement data. *)
Definition packet_trace (d : device) (value : bytes) : list scan_event :=
  Print_processing_packet (name_or_unknown (device_name d)) (bytes_hex value)
  :: map Packet_event (fst (process_packet value)).

Definition device_trace (d : device) : list scan_event :=
  Print_found_device (device_name d) (device_address d)
  :: flat_map (packet_trace d) (device_packets d).

Definition is_event (ev : event) (sev : scan_event) : bool :=
  match sev, ev with
  | Packet_event Call_parse_accelerometer_data, Call_parse_accelerometer_data => true
  | Packet_event Call_detect_motion, Call_detect_motion => true
  | Packet_event Call_parse_ibeacon_data, Call_parse_ibeacon_data => true
  | _, _ => false
  end.

(** How many times a function was called during a scan. *)
Definition count_calls (ev : event) (tr : list scan_event) : nat :=
  List.length (filter (is_event ev) tr).

(** ** Reading a sample *)

(** The sum of the squared differences between the axes. *)
Definition pairwise_squares (x y z : Z) : Z :=
  ((x - y) * (x - y) + (y - z) * (y - z) + (z - x) * (z - x))%Z.

(** The distance between the largest and the smallest axis. *)
Definition spread (x y z : Z) : Z :=
  (Z.max x (Z.max y z) - Z.min x (Z.min y z))%Z.



(** The byte whose value is [v mod 256]. *)
Definition byte_of_Z (v : Z) : Byte.byte :=
  match Byte.of_N (Z.to_N (v mod 256)) with
  | Some b => b
  | None => Byte.x00
  end.

(** ** Sample devices *)

Definition device_a : device :=
  {| device_name := Some "tag";
     device_address := "AA:BB";
     device_advertisement := None;
     device_metadata := Some (Some [(76%Z, packet_19); (77%Z, packet_18)]) |}.

Definition device_bare : device :=
  {| device_name := None;
     device_address := "CC:DD";
     device_advertisement := None;
     device_metadata := None |}.

Definition device_b : device :=
  {| device_name := Some "";
     device_address := "EE:FF";
     device_advertisement := Some (Some [(76%Z, packet_28)]);
     device_metadata := None |}.

(* ================================================================= *)
(** * Properties *)

Lemma String_length_app (s t : string) :
  String.length (s ++ t) = String.length s + String.length t.
Proof.
  induction s as [|c s IH]; simpl; [reflexivity | now rewrite IH].
Qed.

Lemma bytes_hex_length (packet : bytes) :
  String.length (bytes_hex packet) = 2 * List.length packet.
Proof.
  induction packet as [|b rest IH]; simpl; [reflexivity | lia].
Qed.

(** ** Hexadecimal text against the bytes it was written from *)

Lemma substring_bytes_hex_prefix (n : nat) (packet : bytes) :
  String.substring 0 (2 * n) (bytes_hex packet) = bytes_hex (firstn n packet).
Proof.
  revert packet; induction n as [|n IH]; intros [|b rest]; try reflexivity.
  replace (2 * S n) with (S (S (2 * n))) by lia.
  cbn [bytes_hex firstn byte_hex String.append String.substring].
  now rewrite IH.
Qed.

Lemma substring_bytes_hex_skip (i m : nat) (packet : bytes) :
  String.substring (2 * i) m (bytes_hex packet)
  = String.substring 0 m (bytes_hex (skipn i packet)).
Proof.
  revert packet; induction i as [|i IH]; intros [|b rest]; try reflexivity.
  - destruct m; reflexivity.
  - replace (2 * S i) with (S (S (2 * i))) by lia.
    cbn [bytes_hex skipn byte_hex String.append String.substring].
    apply IH.
Qed.

(** Characters [2i, 2j) of the text are the digits of bytes [i, j). *)
Lemma slice_bytes_hex (packet : bytes) (i j : nat) :
  slice (bytes_hex packet) (2 * i) (2 * j) = bytes_hex (bytes_slice packet i j).
Proof.
  unfold slice, bytes_slice.
  replace (2 * j - 2 * i) with (2 * (j - i)) by lia.
  now rewrite substring_bytes_hex_skip, substring_bytes_hex_prefix.
Qed.

Lemma hex_digit_value_hex_digit (n : N) :
  (n < 16)%N -> hex_digit_value (hex_digit n) = Some (Z.of_N n).
Proof.
  intros Hn.
  destruct n as [|p]; [reflexivity|].
  do 4 (destruct p as [p|p|]; try reflexivity); lia.
Qed.

Lemma int_base16_digits_byte_hex (b : Byte.byte) (s : string) (acc : Z) :
  int_base16_digits (byte_hex b ++ s) acc = int_base16_digits s (256 * acc + byte_val b)%Z.
Proof.
  pose proof (Byte.to_N_bounded b) as Hb.
  unfold byte_hex, byte_val.
  cbn [String.append int_base16_digits].
  rewrite !hex_digit_value_hex_digit.
  - f_equal. rewrite N2Z.inj_div, N2Z.inj_mod.
    change (Z.of_N 16) with 16%Z.
    pose proof (Z.div_mod (Z.of_N (Byte.to_N b)) 16). lia.
  - apply N.mod_lt. lia.
  - apply N.Div0.div_lt_upper_bound. lia.
Qed.

Lemma int_base16_digits_bytes_hex (bs : bytes) (acc : Z) :
  int_base16_digits (bytes_hex bs) acc
  = Ret (fold_left (fun a b => (256 * a + byte_val b)%Z) bs acc).
Proof.
  revert acc; induction bs as [|b bs IH]; intros acc; [reflexivity|].
  cbn [bytes_hex fold_left]. now rewrite int_base16_digits_byte_hex, IH.
Qed.

(** [int(text, 16)] of the digits of a non-empty run of bytes is the
    big-endian integer those bytes hold. *)
Lemma int_base16_bytes_hex (bs : bytes) :
  bs <> [] -> int_base16 (bytes_hex bs) = Ret (be_uint bs).
Proof.
  intros Hne. destruct bs as [|b bs]; [congruence|].
  unfold int_base16, be_uint.
  rewrite <- int_base16_digits_bytes_hex. reflexivity.
Qed.

Lemma bytes_slice_pair (packet : bytes) (i : nat) :
  i + 2 <= List.length packet ->
  bytes_slice packet i (i + 2)
  = [nth i packet Byte.x00; nth (i + 1) packet Byte.x00].
Proof.
  unfold bytes_slice. replace (i + 2 - i) with 2 by lia.
  revert packet; induction i as [|i IH]; intros packet Hlen.
  - destruct packet as [|a [|b rest]]; cbn in Hlen; try lia. reflexivity.
  - destruct packet as [|a rest]; cbn in Hlen; [lia|].
    cbn [skipn Nat.add nth]. apply IH. lia.
Qed.

Lemma int_base16_slice_field (packet : bytes) (i : nat) :
  i + 2 <= List.length packet ->
  int_base16 (slice (bytes_hex packet) (2 * i) (2 * (i + 2))) = Ret (u16_be packet i).
Proof.
  intros Hlen.
  rewrite slice_bytes_hex, bytes_slice_pair by exact Hlen.
  rewrite int_base16_bytes_hex by discriminate.
  reflexivity.
Qed.

Lemma byte_val_range (b : Byte.byte) : (0 <= byte_val b <= 255)%Z.
Proof.
  unfold byte_val. pose proof (Byte.to_N_bounded b). lia.
Qed.

Lemma u16_be_range (packet : bytes) (off : nat) :
  (0 <= u16_be packet off <= 65535)%Z.
Proof.
  unfold u16_be.
  pose proof (byte_val_range (nth off packet Byte.x00)).
  pose proof (byte_val_range (nth (off + 1) packet Byte.x00)).
  lia.
Qed.

Lemma to_signed16_s16_be (packet : bytes) (off : nat) :
  to_signed16 (u16_be packet off) = s16_be packet off.
Proof.
  unfold to_signed16, s16_be.
  destruct (Z.ltb_spec 32767 (u16_be packet off));
    destruct (Z.leb_spec 32768 (u16_be packet off)); lia.
Qed.

(** ** The decoders of the source against their byte-level reading *)

Lemma hex_guard (packet : bytes) (n : nat) :
  (String.length (bytes_hex packet) <? 2 * n)%nat = (List.length packet <? n)%nat.
Proof.
  rewrite bytes_hex_length.
  destruct (Nat.ltb_spec (2 * List.length packet) (2 * n));
    destruct (Nat.ltb_spec (List.length packet) n); lia.
Qed.

Lemma int_base16_slice_at (packet : bytes) (a b i : nat) :
  a = 2 * i -> b = 2 * (i + 2) -> i + 2 <= List.length packet ->
  int_base16 (slice (bytes_hex packet) a b) = Ret (u16_be packet i).
Proof. intros -> ->. apply int_base16_slice_field. Qed.

Lemma slice_truthy_at (packet : bytes) (a b i : nat) :
  a = 2 * i -> b = 2 * (i + 2) -> i + 2 <= List.length packet ->
  truthy (PyStr (slice (bytes_hex packet) a b)) = true.
Proof.
  intros -> -> Hlen.
  now rewrite slice_bytes_hex, bytes_slice_pair by exact Hlen.
Qed.

Lemma slice_bytes_hex_at (packet : bytes) (a b i j : nat) :
  a = 2 * i -> b = 2 * j ->
  slice (bytes_hex packet) a b = bytes_hex (bytes_slice packet i j).
Proof. intros -> ->. apply slice_bytes_hex. Qed.

Lemma hex_guard_at (packet : bytes) (m n : nat) :
  m = 2 * n ->
  (String.length (bytes_hex packet) <? m)%nat = (List.length packet <? n)%nat.
Proof. intros ->. apply hex_guard. Qed.

Ltac offsets := first [reflexivity | lia].

Lemma parse_accelerometer_data_decode (packet : bytes) :
  parse_accelerometer_data packet = Ret (py_of_sample (decode_accelerometer packet)).
Proof.
  unfold parse_accelerometer_data, parse_accelerometer_data_try,
    decode_accelerometer, ACCEL_MIN_LENGTH.
  rewrite (hex_guard_at packet 38 19) by offsets.
  destruct (Nat.ltb_spec (List.length packet) 19) as [Hlt|Hge]; [reflexivity|].
  rewrite (int_base16_slice_at packet 26 30 13) by offsets.
  rewrite (int_base16_slice_at packet 30 34 15) by offsets.
  rewrite (int_base16_slice_at packet 34 38 17) by offsets.
  cbn [bind try_except py_of_sample sample_x sample_y sample_z].
  now rewrite !to_signed16_s16_be.
Qed.

Lemma parse_ibeacon_data_decode (packet : bytes) :
  parse_ibeacon_data packet = Ret (py_of_ibeacon (decode_ibeacon packet)).
Proof.
  unfold parse_ibeacon_data, parse_ibeacon_data_try,
    decode_ibeacon, IBEACON_MIN_LENGTH.
  rewrite (hex_guard_at packet 56 28) by offsets.
  destruct (Nat.ltb_spec (List.length packet) 28) as [Hlt|Hge]; [reflexivity|].
  rewrite (slice_truthy_at packet 48 52 24) by offsets.
  rewrite (slice_truthy_at packet 52 56 26) by offsets.
  rewrite (int_base16_slice_at packet 48 52 24) by offsets.
  rewrite (int_base16_slice_at packet 52 56 26) by offsets.
  rewrite (slice_bytes_hex_at packet 16 48 8 24) by offsets.
  reflexivity.
Qed.

Lemma bytes_slice_length (packet : bytes) (i j : nat) :
  j <= List.length packet -> List.length (bytes_slice packet i j) = j - i.
Proof.
  intros Hj. unfold bytes_slice.
  rewrite length_firstn, length_skipn. lia.
Qed.

Lemma bytes_slice_nth (packet : bytes) (i j k : nat) :
  k < j - i -> nth k (bytes_slice packet i j) Byte.x00 = nth (i + k) packet Byte.x00.
Proof.
  intros Hk. unfold bytes_slice.
  rewrite nth_firstn.
  destruct (Nat.ltb_spec k (j - i)); [|lia].
  now rewrite nth_skipn.
Qed.

(** ** Every slice of the hexadecimal text is made of lowercase digits *)

Lemma lower_hex_text_app (s t : string) :
  lower_hex_text (s ++ t) = lower_hex_text s && lower_hex_text t.
Proof.
  induction s as [|c s IH]; [reflexivity|].
  cbn [String.append lower_hex_text]. now rewrite IH, andb_assoc.
Qed.

Lemma lower_hex_text_bytes_hex (packet : bytes) :
  lower_hex_text (bytes_hex packet) = true.
Proof.
  induction packet as [|b rest IH]; [reflexivity|].
  cbn [bytes_hex]. rewrite lower_hex_text_app, IH, andb_true_r.
  destruct b; reflexivity.
Qed.

Lemma lower_hex_text_substring (s : string) (i n : nat) :
  lower_hex_text s = true -> lower_hex_text (String.substring i n s) = true.
Proof.
  revert i n; induction s as [|c s IH]; intros i n Hs.
  - destruct i, n; reflexivity.
  - cbn [lower_hex_text] in Hs. apply andb_true_iff in Hs as [Hc Hs].
    destruct i as [|i]; destruct n as [|n]; cbn [String.substring lower_hex_text];
      try reflexivity; try (apply IH; exact Hs).
    rewrite Hc. apply IH; exact Hs.
Qed.

Lemma slice_bytes_hex_digits (packet : bytes) (i j : nat) :
  lower_hex_text (slice (bytes_hex packet) i j) = true.
Proof.
  apply lower_hex_text_substring, lower_hex_text_bytes_hex.
Qed.

(** On such text [int_base16] raises for the empty text only. *)
Lemma int_base16_lower_hex_text (s : string) :
  lower_hex_text s = true -> s <> EmptyString -> exists v, int_base16 s = Ret v.
Proof.
  intros Hs Hne. destruct s as [|c s]; [congruence|]. unfold int_base16.
  generalize 0%Z. revert Hs. generalize (String c s). clear.
  induction s as [|c s IH]; intros Hs acc; [now exists acc|].
  cbn [lower_hex_text] in Hs. apply andb_true_iff in Hs as [Hc Hs].
  cbn [int_base16_digits]. unfold hex_digit_value.
  apply orb_true_iff in Hc as [Hc|Hc]; rewrite Hc.
  - apply IH; exact Hs.
  - destruct (((48 <=? N_of_ascii c) && (N_of_ascii c <=? 57))%N); apply IH; exact Hs.
Qed.

(* ================================================================= *)
(** * The accelerometer decoder: claims *)

(** C1.  On a packet of at least 19 bytes the decoder returns the
    dictionary whose x, y and z are the big-endian 16-bit fields at byte
    offsets 13-14, 15-16 and 17-18, each an unsigned value in 0..65535
    reinterpreted as two's complement (below 32768 unchanged, otherwise
    less 65536).  Fields [00 32], [FF CE], [00 00] give 50, -50, 0; a
    field [7F FF] gives 32767 and [80 00] gives -32768. *)
Theorem parse_accelerometer_data_fields (packet : bytes) :
  19 <= List.length packet ->
  let byte k := byte_val (nth k packet Byte.x00) in
  let field k := (256 * byte k + byte (k + 1)%nat)%Z in
  let signed raw := if (raw <? 32768)%Z then raw else (raw - 65536)%Z in
  parse_accelerometer_data packet
    = Ret (accel_dict (signed (field 13)) (signed (field 15)) (signed (field 17)))
  /\ (forall k, (0 <= field k <= 65535)%Z
                /\ (-32768 <= signed (field k) <= 32767)%Z)
  /\ (field 13 = 50%Z -> field 15 = 65486%Z -> field 17 = 0%Z ->
      parse_accelerometer_data packet = Ret (accel_dict 50 (-50) 0))
  /\ (field 13 = 32767%Z -> exists y z,
      parse_accelerometer_data packet = Ret (accel_dict 32767 y z))
  /\ (field 13 = 32768%Z -> exists y z,
      parse_accelerometer_data packet = Ret (accel_dict (-32768) y z)).
Proof.
  intros Hlen byte field signed.
  assert (Hsigned : forall k, s16_be packet k = signed (field k)).
  { intros k. unfold s16_be, signed, field, byte, u16_be.
    match goal with |- context [(32768 <=? ?v)%Z] =>
      destruct (Z.leb_spec 32768 v); destruct (Z.ltb_spec v 32768); lia end. }
  assert (Hparse : parse_accelerometer_data packet
                   = Ret (accel_dict (signed (field 13)) (signed (field 15))
                            (signed (field 17)))).
  { rewrite parse_accelerometer_data_decode. unfold decode_accelerometer, ACCEL_MIN_LENGTH.
    destruct (Nat.ltb_spec (List.length packet) 19); [lia|].
    cbn [py_of_sample sample_x sample_y sample_z].
    unfold ACCEL_X_OFFSET, ACCEL_Y_OFFSET, ACCEL_Z_OFFSET.
    now rewrite !Hsigned. }
  split; [exact Hparse|]. split.
  { intros k. pose proof (u16_be_range packet k) as Hr.
    change (u16_be packet k) with (field k) in Hr.
    unfold signed. destruct (Z.ltb_spec (field k) 32768); lia. }
  rewrite Hparse. repeat split.
  - intros -> -> ->. reflexivity.
  - intros ->. eauto.
  - intros ->. eauto.
Qed.

Lemma parse_accelerometer_data_fields_witness :
  parse_accelerometer_data packet_19 = Ret (accel_dict 50 (-50) 0).
Proof.
  apply (parse_accelerometer_data_fields packet_19); [simpl; lia | reflexivity ..].
Defined.

(** C3.  The decoder returns [None] exactly on the packets shorter than
    19 bytes: 18 bytes give [None], 19 bytes pass the length check. *)
Theorem parse_accelerometer_data_short (packet : bytes) :
  List.length packet < 19 <-> parse_accelerometer_data packet = Ret PyNone.
Proof.
  rewrite parse_accelerometer_data_decode.
  unfold decode_accelerometer, ACCEL_MIN_LENGTH.
  destruct (Nat.ltb_spec (List.length packet) 19) as [Hlt|Hge]; cbn [py_of_sample].
  - tauto.
  - split; [lia | discriminate].
Qed.

Lemma parse_accelerometer_data_short_witness :
  parse_accelerometer_data packet_18 = Ret PyNone
  /\ parse_accelerometer_data packet_19 <> Ret PyNone.
Proof.
  split.
  - apply (proj1 (parse_accelerometer_data_short packet_18)). simpl. lia.
  - intros H. apply (proj2 (parse_accelerometer_data_short packet_19)) in H.
    simpl in H. lia.
Defined.

(* ================================================================= *)
(** * The iBeacon decoder: claims *)

(** C4.  On a packet of at least 28 bytes the decoder returns the
    dictionary whose uuid is the 32-character hexadecimal text of the 16
    bytes at offsets 8..23, unchanged, whose major is the unsigned
    big-endian 16-bit integer at offsets 24-25 and whose minor is the one
    at offsets 26-27. *)
Theorem parse_ibeacon_data_fields (packet : bytes) :
  28 <= List.length packet ->
  let byte k := byte_val (nth k packet Byte.x00) in
  let id := bytes_slice packet 8 24 in
  parse_ibeacon_data packet
    = Ret (ibeacon_dict (bytes_hex id)
             (PyInt (256 * byte 24 + byte 25))
             (PyInt (256 * byte 26 + byte 27)))
  /\ List.length id = 16
  /\ (forall k, k < 16 -> nth k id Byte.x00 = nth (8 + k) packet Byte.x00)
  /\ String.length (bytes_hex id) = 32
  /\ (0 <= 256 * byte 24%nat + byte 25%nat <= 65535)%Z
  /\ (0 <= 256 * byte 26%nat + byte 27%nat <= 65535)%Z.
Proof.
  intros Hlen byte id.
  assert (Hid : List.length id = 16).
  { unfold id. rewrite bytes_slice_length by lia. reflexivity. }
  split.
  { rewrite parse_ibeacon_data_decode. unfold decode_ibeacon, IBEACON_MIN_LENGTH.
    destruct (Nat.ltb_spec (List.length packet) 28); [lia|]. reflexivity. }
  split; [exact Hid|]. split.
  { intros k Hk. unfold id. apply bytes_slice_nth. lia. }
  split; [rewrite bytes_hex_length, Hid; reflexivity|].
  split; [apply (u16_be_range packet 24) | apply (u16_be_range packet 26)].
Qed.

Lemma parse_ibeacon_data_fields_witness :
  parse_ibeacon_data packet_28
  = Ret (ibeacon_dict "000102030405060708090a0b0c0d0e0f" (PyInt 258) (PyInt 65534)).
Proof.
  apply (parse_ibeacon_data_fields packet_28). simpl. lia.
Defined.

(** C5.  The decoder returns [None] on every packet shorter than 28
    bytes (56 hexadecimal characters), and on no other packet. *)
Theorem parse_ibeacon_data_short (packet : bytes) :
  List.length packet < 28 <-> parse_ibeacon_data packet = Ret PyNone.
Proof.
  rewrite parse_ibeacon_data_decode.
  unfold decode_ibeacon, IBEACON_MIN_LENGTH.
  destruct (Nat.ltb_spec (List.length packet) 28) as [Hlt|Hge]; cbn [py_of_ibeacon].
  - tauto.
  - split; [lia | discriminate].
Qed.

Lemma parse_ibeacon_data_short_witness :
  parse_ibeacon_data packet_27 = Ret PyNone
  /\ String.length (bytes_hex packet_27) < 56.
Proof.
  split.
  - apply (proj1 (parse_ibeacon_data_short packet_27)). simpl. lia.
  - simpl. lia.
Defined.

(** C9.  Once the length guard of the iBeacon decoder has passed (28
    bytes or more), both texts tested by the conditional expressions are
    non-empty, so the [else None] branches are not taken and the major
    and minor of the returned dictionary are integers, never [None]. *)
Theorem parse_ibeacon_data_major_minor_present (packet : bytes) :
  28 <= List.length packet ->
  truthy (PyStr (slice (bytes_hex packet) 48 52)) = true
  /\ truthy (PyStr (slice (bytes_hex packet) 52 56)) = true
  /\ exists items major minor,
       parse_ibeacon_data packet = Ret (PyDict items)
       /\ dict_get items "major" = Some (PyInt major)
       /\ dict_get items "minor" = Some (PyInt minor).
Proof.
  intros Hlen.
  split; [apply (slice_truthy_at packet 48 52 24); offsets|].
  split; [apply (slice_truthy_at packet 52 56 26); offsets|].
  rewrite parse_ibeacon_data_decode. unfold decode_ibeacon, IBEACON_MIN_LENGTH.
  destruct (Nat.ltb_spec (List.length packet) 28); [lia|].
  cbn [py_of_ibeacon].
  do 3 eexists. split; [reflexivity|]. split; reflexivity.
Qed.

Lemma parse_ibeacon_data_major_minor_present_witness :
  truthy (PyStr (slice (bytes_hex packet_28) 48 52)) = true
  /\ truthy (PyStr (slice (bytes_hex packet_28) 52 56)) = true
  /\ exists items major minor,
       parse_ibeacon_data packet_28 = Ret (PyDict items)
       /\ dict_get items "major" = Some (PyInt major)
       /\ dict_get items "minor" = Some (PyInt minor).
Proof.
  apply (parse_ibeacon_data_major_minor_present packet_28). simpl. lia.
Defined.

(* ================================================================= *)
(** * Both decoders: totality and the byte-level reading *)

Lemma parse_accelerometer_data_cases (packet : bytes) :
  parse_accelerometer_data packet = Ret PyNone
  \/ exists x y z, parse_accelerometer_data packet = Ret (accel_dict x y z).
Proof.
  rewrite parse_accelerometer_data_decode.
  destruct (decode_accelerometer packet) as [s|]; [right | left; reflexivity].
  exists (sample_x s), (sample_y s), (sample_z s). reflexivity.
Qed.

Lemma parse_ibeacon_data_cases (packet : bytes) :
  parse_ibeacon_data packet = Ret PyNone
  \/ exists uuid major minor,
       parse_ibeacon_data packet
       = Ret (ibeacon_dict uuid (PyInt major) (PyInt minor)).
Proof.
  rewrite parse_ibeacon_data_decode.
  destruct (decode_ibeacon packet) as [b|]; [right | left; reflexivity].
  exists (bytes_hex (identifier b)), (major b), (minor b). reflexivity.
Qed.

(** C7.  On every byte buffer, of any length, each decoder returns
    normally, with either [None] or a fully populated dictionary; no
    exception reaches the caller.  On the empty buffer both return
    [None]. *)
Theorem decoders_never_raise (packet : bytes) :
  (parse_accelerometer_data packet = Ret PyNone
   \/ exists x y z, parse_accelerometer_data packet = Ret (accel_dict x y z))
  /\ (parse_ibeacon_data packet = Ret PyNone
      \/ exists uuid major minor,
           parse_ibeacon_data packet
           = Ret (ibeacon_dict uuid (PyInt major) (PyInt minor)))
  /\ parse_accelerometer_data [] = Ret PyNone
  /\ parse_ibeacon_data [] = Ret PyNone.
Proof.
  split; [apply parse_accelerometer_data_cases|].
  split; [apply parse_ibeacon_data_cases|].
  split; reflexivity.
Qed.

(** C10.  Reading the hexadecimal text is reading the bytes: characters
    [2k, 2m) of [packet.hex()] are the digits of bytes k..m-1, the text
    has at least 38 (56) characters exactly when the packet has at least
    19 (28) bytes, and on every packet the two decoders of the source
    return what the decoders over named byte offsets return. *)
Theorem hex_decoding_refines_byte_decoding (packet : bytes) :
  (forall k m, slice (bytes_hex packet) (2 * k) (2 * m)
               = bytes_hex (bytes_slice packet k m))
  /\ (forall k m i, m <= List.length packet -> i < m - k ->
        nth i (bytes_slice packet k m) Byte.x00 = nth (k + i) packet Byte.x00)
  /\ (38 <= String.length (bytes_hex packet) <-> 19 <= List.length packet)
  /\ (56 <= String.length (bytes_hex packet) <-> 28 <= List.length packet)
  /\ parse_accelerometer_data packet = Ret (py_of_sample (decode_accelerometer packet))
  /\ parse_ibeacon_data packet = Ret (py_of_ibeacon (decode_ibeacon packet)).
Proof.
  split; [intros k m; apply slice_bytes_hex|].
  split; [intros k m i _ Hi; now apply bytes_slice_nth|].
  rewrite bytes_hex_length.
  split; [lia|]. split; [lia|].
  split; [apply parse_accelerometer_data_decode | apply parse_ibeacon_data_decode].
Qed.

(** Distinct byte runs have distinct hexadecimal texts, so the text
    determines the bytes it was written from. *)
Lemma hex_digit_inj (n m : N) :
  (n < 16)%N -> (m < 16)%N -> hex_digit n = hex_digit m -> n = m.
Proof.
  intros Hn Hm H. apply (f_equal hex_digit_value) in H.
  rewrite !hex_digit_value_hex_digit in H by assumption.
  injection H as H. lia.
Qed.

Lemma byte_hex_inj (a b : Byte.byte) : byte_hex a = byte_hex b -> a = b.
Proof.
  unfold byte_hex. intros H. injection H as Hhi Hlo.
  pose proof (Byte.to_N_bounded a) as Ha.
  pose proof (Byte.to_N_bounded b) as Hb.
  apply hex_digit_inj in Hhi;
    [|apply N.Div0.div_lt_upper_bound; lia ..].
  apply hex_digit_inj in Hlo; [|apply N.mod_lt; lia ..].
  assert (Heq : Byte.to_N a = Byte.to_N b).
  { rewrite (N.div_mod (Byte.to_N a) 16), (N.div_mod (Byte.to_N b) 16) by lia.
    now rewrite Hhi, Hlo. }
  apply (f_equal Byte.of_N) in Heq. rewrite !Byte.of_to_N in Heq.
  now injection Heq.
Qed.

Lemma bytes_hex_inj (p q : bytes) : bytes_hex p = bytes_hex q -> p = q.
Proof.
  revert q; induction p as [|a p IH]; intros [|b q] H; try reflexivity;
    try discriminate.
  cbn [bytes_hex byte_hex String.append] in H.
  injection H as H1 H2 H3.
  f_equal; [|now apply IH].
  apply byte_hex_inj. unfold byte_hex. now rewrite H1, H2.
Qed.

(* ================================================================= *)
(** * The motion classifier: labels *)

Lemma detect_motion_accel_dict (x y z : Z) :
  detect_motion (accel_dict x y z)
  = Ret (if (float_of_Z MOTION_THRESHOLD <? np_var_floats [x; y; z])%float
         then "Moving" else "Stationary").
Proof. reflexivity. Qed.

Lemma detect_motion_dict (items : list (string * pyval)) :
  detect_motion (PyDict items)
  = match as_int_array (map snd items) with
    | Ret arr => Ret (if (float_of_Z MOTION_THRESHOLD <? np_var_floats arr)%float
                      then "Moving" else "Stationary")
    | Raise _ => Ret "Error"
    end.
Proof.
  unfold detect_motion, detect_motion_try, np_var. cbn [py_values bind].
  destruct (as_int_array (map snd items)); reflexivity.
Qed.

(** C6, as the code has it.  The classifier never raises and its result
    is one of "Moving", "Stationary", "Error"; on a sample of three
    16-bit integers it is "Moving" or "Stationary".  What raises inside
    it (an argument that is not a dictionary, a value that is not a
    number) is turned into "Error".  An empty dictionary raises nothing:
    its variance is a NaN, the comparison with the threshold is false,
    and the label is "Stationary". *)
Theorem detect_motion_labels :
  (forall x y z, in_int16 x -> in_int16 y -> in_int16 z ->
      detect_motion (accel_dict x y z) = Ret "Moving"
      \/ detect_motion (accel_dict x y z) = Ret "Stationary")
  /\ (forall accel_data,
        detect_motion accel_data = Ret "Moving"
        \/ detect_motion accel_data = Ret "Stationary"
        \/ detect_motion accel_data = Ret "Error")
  /\ detect_motion PyNone = Ret "Error"
  /\ (forall n, detect_motion (PyInt n) = Ret "Error")
  /\ (forall s, detect_motion (PyStr s) = Ret "Error")
  /\ (forall key items, detect_motion (PyDict ((key, PyNone) :: items)) = Ret "Error")
  /\ (forall key s items,
        detect_motion (PyDict ((key, PyStr s) :: items)) = Ret "Error")
  /\ detect_motion (PyDict []) = Ret "Stationary".
Proof.
  split.
  { intros x y z _ _ _. rewrite detect_motion_accel_dict.
    destruct (_ <? _)%float; auto. }
  split.
  { intros [| n | s | items]; try (right; right; reflexivity).
    rewrite detect_motion_dict.
    destruct (as_int_array (map snd items)); [|now right; right].
    destruct (_ <? _)%float; auto. }
  repeat split; reflexivity.
Qed.

Lemma detect_motion_labels_witness :
  (detect_motion (accel_dict 50 (-50) 0) = Ret "Moving"
   \/ detect_motion (accel_dict 50 (-50) 0) = Ret "Stationary")
  /\ detect_motion (PyDict []) = Ret "Stationary".
Proof.
  split.
  - apply (proj1 detect_motion_labels); unfold in_int16; lia.
  - apply (proj2 (proj2 (proj2 (proj2 (proj2 (proj2 (proj2 detect_motion_labels))))))).
Defined.

(** C6, as the specification has it, fails on the empty container: the
    label is not "Error". *)
Lemma detect_motion_empty_dict_not_error :
  detect_motion (PyDict []) <> Ret "Error".
Proof. vm_compute. discriminate. Qed.

(* ================================================================= *)
(** * Dispatch *)

Lemma process_packet_accelerometer (value : bytes) (x y z : Z) :
  parse_accelerometer_data value = Ret (accel_dict x y z) ->
  exists status,
    detect_motion (accel_dict x y z) = Ret status
    /\ process_packet value
       = ([Call_parse_accelerometer_data;
           Print_accelerometer_data (accel_dict x y z);
           Call_detect_motion;
           Print_motion_status status], Ret tt).
Proof.
  intros Hparse. unfold process_packet. rewrite Hparse.
  rewrite detect_motion_accel_dict.
  eexists; split; reflexivity.
Qed.

Lemma process_packet_fallback (value : bytes) :
  parse_accelerometer_data value = Ret PyNone ->
  process_packet value
  = ([Call_parse_accelerometer_data;
      Print_no_accelerometer_data;
      Call_parse_ibeacon_data;
      match decode_ibeacon value with
      | Some b => Print_ibeacon_data (py_of_ibeacon (Some b))
      | None => Print_failed_ibeacon
      end], Ret tt).
Proof.
  intros Hparse. unfold process_packet. rewrite Hparse.
  rewrite parse_ibeacon_data_decode.
  destruct (decode_ibeacon value); reflexivity.
Qed.

(** C8.  For every payload the accelerometer decoder is called first.
    When it returns a sample, the classifier is called on that sample
    and the iBeacon decoder is not called; the iBeacon decoder is
    called only when the accelerometer decoder returned [None], and then
    the classifier is not called.  No payload gets both a motion status
    and an iBeacon record. *)
Theorem dispatch_mutually_exclusive (value : bytes) :
  ((exists x y z status,
       parse_accelerometer_data value = Ret (accel_dict x y z)
       /\ detect_motion (accel_dict x y z) = Ret status
       /\ fst (process_packet value)
          = [Call_parse_accelerometer_data;
             Print_accelerometer_data (accel_dict x y z);
             Call_detect_motion;
             Print_motion_status status]
       /\ calls_of value = [Call_parse_accelerometer_data; Call_detect_motion])
   \/ (parse_accelerometer_data value = Ret PyNone
       /\ calls_of value = [Call_parse_accelerometer_data; Call_parse_ibeacon_data]))
  /\ hd_error (fst (process_packet value)) = Some Call_parse_accelerometer_data
  /\ ~ (In Call_detect_motion (fst (process_packet value))
        /\ In Call_parse_ibeacon_data (fst (process_packet value)))
  /\ (forall status ibeacon_data,
        ~ (In (Print_motion_status status) (fst (process_packet value))
           /\ In (Print_ibeacon_data ibeacon_data) (fst (process_packet value)))).
Proof.
  destruct (parse_accelerometer_data_cases value) as [Hnone | (x & y & z & Hsome)].
  - pose proof (process_packet_fallback value Hnone) as Hp.
    unfold calls_of. rewrite Hp. cbn [fst].
    split; [right; split; [exact Hnone|]|].
    { destruct (decode_ibeacon value); reflexivity. }
    split; [reflexivity|]. split.
    + intros [Hd _]. cbn in Hd.
      destruct (decode_ibeacon value); intuition discriminate.
    + intros status ibeacon_data [Hs _]. cbn in Hs.
      destruct (decode_ibeacon value); intuition discriminate.
  - destruct (process_packet_accelerometer value x y z Hsome) as (status & Hd & Hp).
    unfold calls_of. rewrite Hp. cbn [fst].
    split; [left; exists x, y, z, status; repeat split; assumption|].
    split; [reflexivity|]. split.
    + intros [_ Hi]. cbn in Hi. intuition discriminate.
    + intros s d [_ Hi]. cbn in Hi. intuition discriminate.
Qed.

(* ================================================================= *)
(** * Binary64 arithmetic

    The classifier computes in binary64.  The primitive floats are
    specified by [SpecFloat]; this part derives, from that
    specification, what one operation does to the real values: each of
    [+], [-], [*], [/] returns the exact result rounded to nearest, so
    it is off by at most 2^-53 of the result and exact on small
    integers. *)

Lemma fexp_eq (k : Z) : fexp prec emax k = Z.max (k - 53) (-1074)%Z.
Proof. reflexivity. Qed.

Ltac fexp_lia :=
  repeat match goal with x := _ |- _ => clearbody x end;
  rewrite ?fexp_eq in *; lia.

(** ** Shifting a mantissa right keeps track of what is dropped *)

Section MantissaShift.
Local Open Scope Z_scope.

Lemma digits2_pos_size (p : positive) : digits2_pos p = Pos.size p.
Proof. induction p; simpl; congruence. Qed.

Lemma Zdigits2_log2 (m : Z) : 0 < m -> Zdigits2 m = Z.log2 m + 1.
Proof.
  destruct m as [|p|p]; try lia. intros _. simpl.
  rewrite digits2_pos_size.
  destruct p; simpl; lia.
Qed.

Lemma Zdigits2_bounds (m : Z) :
  0 < m -> 2 ^ (Zdigits2 m - 1) <= m < 2 ^ Zdigits2 m.
Proof.
  intros Hm. rewrite Zdigits2_log2 by exact Hm.
  replace (Z.log2 m + 1 - 1) with (Z.log2 m) by lia.
  pose proof (Z.log2_spec m Hm). unfold Z.succ in *. lia.
Qed.

Lemma Zdigits2_nonneg (m : Z) : 0 <= Zdigits2 m.
Proof. destruct m; simpl; lia. Qed.

(** One right shift of the mantissa [N / D] is the mantissa of
    [N / (2 D)], and the round and sticky bits follow. *)
Lemma shr_1_at (N D : Z) :
  0 <= N -> 0 < D -> shr_1 (shr_record_at N D) = shr_record_at N (2 * D).
Proof.
  intros HN HD. unfold shr_record_at, location_of.
  pose proof (Z.div_mod N D ltac:(lia)) as Hdm.
  pose proof (Z.mod_pos_bound N D HD) as Hr.
  pose proof (Z.div_pos N D HN HD) as Hq.
  set (q := N / D) in *. set (r := N mod D) in *.
  assert (Hq2 : q = 2 * (q / 2) + q mod 2) by (apply Z.div_mod; lia).
  pose proof (Z.mod_pos_bound q 2 ltac:(lia)) as Hb.
  assert (Hdiv : N / (2 * D) = q / 2).
  { symmetry. apply (Z.div_unique N (2 * D) (q / 2) ((q mod 2) * D + r)); nia. }
  assert (Hmod : N mod (2 * D) = (q mod 2) * D + r).
  { symmetry. apply (Z.mod_unique N (2 * D) (q / 2) ((q mod 2) * D + r)); nia. }
  rewrite Hdiv, Hmod.
  assert (Hcases : (q = 0 /\ q / 2 = 0 /\ q mod 2 = 0)
                   \/ (exists p, q = Zpos p~0 /\ q / 2 = Zpos p /\ q mod 2 = 0)
                   \/ (q = 1 /\ q / 2 = 0 /\ q mod 2 = 1)
                   \/ (exists p, q = Zpos p~1 /\ q / 2 = Zpos p /\ q mod 2 = 1)).
  { destruct q as [|[p|p|]|p].
    - left. lia.
    - right; right; right. exists p. split; [reflexivity|].
      rewrite Pos2Z.inj_xI in Hq2 |- *. lia.
    - right; left. exists p. split; [reflexivity|].
      rewrite Pos2Z.inj_xO in Hq2 |- *. lia.
    - right; right; left. lia.
    - lia. }
  destruct Hcases as [(-> & -> & ->) | [(p & -> & -> & ->) | [(-> & -> & ->) | (p & -> & -> & ->)]]];
    destruct (Z.eqb_spec r 0) as [Hr0|Hr0];
    repeat match goal with
    | |- context [?a =? ?b] => destruct (Z.eqb_spec a b); try lia
    | |- context [?a ?= ?b] => destruct (Z.compare_spec a b); try lia
    end; try reflexivity.
Qed.

Lemma pow2_xI (p : positive) : 2 ^ Zpos p~1 = 2 * (2 ^ Zpos p * 2 ^ Zpos p).
Proof.
  rewrite Pos2Z.inj_xI, <- Z.pow_add_r, <- Z.pow_succ_r by lia.
  f_equal. lia.
Qed.

Lemma pow2_xO (p : positive) : 2 ^ Zpos p~0 = 2 ^ Zpos p * 2 ^ Zpos p.
Proof.
  rewrite Pos2Z.inj_xO, <- Z.pow_add_r by lia. f_equal. lia.
Qed.

Lemma pow2_pos (k : Z) : 0 < 2 ^ k \/ k < 0.
Proof. destruct (Z.le_gt_cases 0 k); [left; apply Z.pow_pos_nonneg; lia | right; lia]. Qed.

(** So do [p] shifts, whatever order [iter_pos] nests them in. *)
Lemma iter_pos_shr_1 (p : positive) (N D : Z) :
  0 <= N -> 0 < D ->
  SpecFloat.iter_pos shr_1 p (shr_record_at N D) = shr_record_at N (D * 2 ^ Zpos p).
Proof.
  intros HN. revert D. induction p as [p IH|p IH|]; intros D HD; cbn [SpecFloat.iter_pos].
  - assert (0 < 2 ^ Zpos p) by (apply Z.pow_pos_nonneg; lia).
    rewrite shr_1_at, IH, IH by (try assumption; nia).
    f_equal. rewrite pow2_xI. ring.
  - assert (0 < 2 ^ Zpos p) by (apply Z.pow_pos_nonneg; lia).
    rewrite IH, IH by (try assumption; nia).
    f_equal. rewrite pow2_xO. ring.
  - rewrite shr_1_at by assumption. f_equal. change (2 ^ 1) with 2. ring.
Qed.

Lemma shr_m_at (N D : Z) : shr_m (shr_record_at N D) = N / D.
Proof.
  unfold shr_record_at. destruct (location_of N D) as [|[| |]]; reflexivity.
Qed.

Lemma loc_of_shr_record_at (N D : Z) :
  loc_of_shr_record (shr_record_at N D) = location_of N D.
Proof.
  unfold shr_record_at. destruct (location_of N D) as [|[| |]]; reflexivity.
Qed.

Lemma shr_record_at_1 (M : Z) : shr_record_of_loc M loc_Exact = shr_record_at M 1.
Proof.
  unfold shr_record_at, location_of. now rewrite Z.mod_1_r, Z.div_1_r.
Qed.

Lemma shr_at (N D e n : Z) :
  0 <= N -> 0 < D -> 0 <= n ->
  shr (shr_record_at N D) e n = (shr_record_at N (D * 2 ^ n), e + n).
Proof.
  intros HN HD Hn. destruct n as [|p|p]; [| |lia]; cbn [shr].
  - now rewrite Z.mul_1_r, Z.add_0_r.
  - now rewrite iter_pos_shr_1.
Qed.

Lemma shr_fexp_at (N D e : Z) :
  0 <= N -> 0 < D ->
  e <= fexp prec emax (Zdigits2 (N / D) + e) ->
  shr_fexp prec emax (N / D) e (location_of N D)
  = (shr_record_at N (D * 2 ^ (fexp prec emax (Zdigits2 (N / D) + e) - e)),
     fexp prec emax (Zdigits2 (N / D) + e)).
Proof.
  intros HN HD He. unfold shr_fexp.
  fold (shr_record_at N D).
  rewrite shr_at by lia. f_equal. lia.
Qed.

Lemma Zdigits2_lt_pow2 (a k : Z) : 0 < a -> a < 2 ^ k -> Zdigits2 a <= k.
Proof.
  intros Ha Hk. pose proof (Zdigits2_bounds a Ha) as [Hlo _].
  destruct (Z.le_gt_cases (Zdigits2 a) k) as [|Hgt]; [assumption|].
  assert (2 ^ k <= 2 ^ (Zdigits2 a - 1)) by (apply Z.pow_le_mono_r; lia).
  lia.
Qed.

Lemma Zdigits2_ge_pow2 (a k : Z) : 0 <= k -> 2 ^ k <= a -> k + 1 <= Zdigits2 a.
Proof.
  intros Hk Ha.
  assert (0 < a) by (pose proof (Z.pow_pos_nonneg 2 k); lia).
  pose proof (Zdigits2_bounds a H) as [_ Hhi].
  destruct (Z.le_gt_cases (k + 1) (Zdigits2 a)) as [|Hgt]; [assumption|].
  assert (2 ^ Zdigits2 a <= 2 ^ k) by (apply Z.pow_le_mono_r; lia).
  lia.
Qed.

Lemma Zdigits2_unique (a d : Z) : 2 ^ (d - 1) <= a < 2 ^ d -> 0 < a -> Zdigits2 a = d.
Proof.
  intros [Hlo Hhi] Ha.
  pose proof (Zdigits2_lt_pow2 a d Ha Hhi).
  destruct (Z.le_gt_cases 1 d).
  - pose proof (Zdigits2_ge_pow2 a (d - 1) ltac:(lia) Hlo). lia.
  - pose proof (Zdigits2_bounds a Ha). pose proof (Zdigits2_nonneg a).
    assert (Zdigits2 a <> 0).
    { destruct a; simpl; lia. }
    assert (d <= 0) by lia.
    assert (2 ^ d <= 2 ^ 0) by (apply Z.pow_le_mono_r; lia).
    change (2 ^ 0) with 1 in *. lia.
Qed.

Lemma Zdigits2_mul_pow2 (a k : Z) :
  0 < a -> 0 <= k -> Zdigits2 (a * 2 ^ k) = Zdigits2 a + k.
Proof.
  intros Ha Hk.
  assert (0 < 2 ^ k) by (apply Z.pow_pos_nonneg; lia).
  rewrite !Zdigits2_log2 by nia.
  rewrite Z.log2_mul_pow2 by lia. lia.
Qed.

Lemma Zdigits2_div_pow2 (a k : Z) :
  0 <= k -> 0 < a / 2 ^ k -> Zdigits2 (a / 2 ^ k) = Zdigits2 a - k.
Proof.
  intros Hk Hq.
  assert (H2k : 0 < 2 ^ k) by (apply Z.pow_pos_nonneg; lia).
  assert (Ha : 0 < a).
  { destruct (Z.lt_trichotomy a 0) as [Hn|[Hz|Hp]]; [|subst; rewrite Z.div_0_l in Hq; lia|assumption].
    pose proof (Z.div_lt_upper_bound a (2 ^ k) 0 H2k ltac:(lia)). lia. }
  pose proof (Zdigits2_bounds a Ha) as [Hlo Hhi].
  pose proof (Zdigits2_nonneg a).
  assert (Hle : 2 ^ k <= a).
  { destruct (Z.le_gt_cases (2 ^ k) a); [assumption|].
    rewrite Z.div_small in Hq; lia. }
  assert (Hdk : k + 1 <= Zdigits2 a) by (apply Zdigits2_ge_pow2; assumption).
  apply Zdigits2_unique; [|assumption].
  split.
  - apply Z.div_le_lower_bound; [assumption|].
    rewrite <- Z.pow_add_r by lia.
    replace (k + (Zdigits2 a - k - 1)) with (Zdigits2 a - 1) by lia. assumption.
  - apply Z.div_lt_upper_bound; [assumption|].
    rewrite <- Z.pow_add_r by lia.
    replace (k + (Zdigits2 a - k)) with (Zdigits2 a) by lia. assumption.
Qed.

Lemma Zdigits2_succ (m : Z) :
  0 <= m ->
  Zdigits2 (m + 1) = Zdigits2 m
  \/ (Zdigits2 (m + 1) = Zdigits2 m + 1 /\ m + 1 = 2 ^ Zdigits2 m).
Proof.
  intros Hm. destruct (Z.eq_dec m 0) as [->|Hnz]; [right; split; reflexivity|].
  assert (Hpos : 0 < m) by lia.
  pose proof (Zdigits2_bounds m Hpos) as [Hlo Hhi].
  pose proof (Zdigits2_bounds (m + 1) ltac:(lia)) as [Hlo' Hhi'].
  destruct (Z.eq_dec (m + 1) (2 ^ Zdigits2 m)) as [Heq|Hne].
  - right. split; [|assumption].
    apply Zdigits2_unique; [|lia].
    replace (Zdigits2 m + 1 - 1) with (Zdigits2 m) by lia.
    split; [lia|]. rewrite Z.pow_add_r by (pose proof (Zdigits2_nonneg m); lia).
    change (2 ^ 1) with 2. lia.
  - left. apply Zdigits2_unique; [|lia]. split; lia.
Qed.

(** The rounded quotient is within one half of the exact one, and is
    the exact one when the division has no remainder. *)
Lemma round_half_even_spec (N D : Z) :
  0 <= N -> 0 < D ->
  (round_half_even N D = N / D \/ round_half_even N D = N / D + 1)
  /\ 2 * Z.abs (round_half_even N D * D - N) <= D
  /\ (N mod D = 0 -> round_half_even N D = N / D).
Proof.
  intros HN HD. unfold round_half_even, location_of.
  pose proof (Z.div_mod N D ltac:(lia)) as Hdm.
  pose proof (Z.mod_pos_bound N D HD) as Hr.
  destruct (Z.eqb_spec (N mod D) 0) as [H0|H0]; cbn [round_nearest_even].
  - repeat split; auto; nia.
  - destruct (Z.compare_spec (2 * (N mod D)) D) as [He|Hl|Hg].
    + destruct (Z.even (N / D)); repeat split; auto; try nia; try lia.
    + repeat split; auto; try nia; lia.
    + repeat split; auto; try nia; lia.
Qed.

(** The rounding function of the specification, on a magnitude
    [N / D * 2^e] given by its integer part and location: the result
    holds the quotient rounded on the grid [2^g] of its binade, the
    mantissa being halved once if rounding carried into a new bit. *)
Lemma binary_round_aux_at (s : bool) (N D e : Z) :
  0 <= N -> 0 < D ->
  e <= fexp prec emax (Zdigits2 (N / D) + e) ->
  let g := fexp prec emax (Zdigits2 (N / D) + e) in
  let M := round_half_even N (D * 2 ^ (g - e)) in
  exists m' e',
    binary_round_aux prec emax s (N / D) e (location_of N D)
    = match m' with
      | Z0 => S754_zero s
      | Zpos p => if e' <=? emax - prec then S754_finite s p e' else S754_infinity s
      | Zneg _ => S754_nan
      end
    /\ 0 <= m' /\ g <= e' <= g + 1 /\ M = m' * 2 ^ (e' - g).
Proof.
  intros HN HD He g M.
  assert (H2 : 0 < 2 ^ (g - e)) by (apply Z.pow_pos_nonneg; lia).
  assert (HD' : 0 < D * 2 ^ (g - e)) by nia.
  unfold binary_round_aux. rewrite shr_fexp_at by assumption.
  fold g. rewrite shr_m_at, loc_of_shr_record_at.
  fold (round_half_even N (D * 2 ^ (g - e))). fold M.
  destruct (round_half_even_spec N (D * 2 ^ (g - e)) HN HD') as (HM & _ & _).
  fold M in HM.
  set (m1 := N / (D * 2 ^ (g - e))) in *.
  assert (Hm1 : 0 <= m1) by (apply Z.div_pos; lia).
  assert (HM0 : 0 <= M) by lia.
  (* the shifted mantissa sits on its own grid *)
  assert (Hgrid : fexp prec emax (Zdigits2 m1 + g) <= g).
  { destruct (Z.eq_dec m1 0) as [Hz|Hnz].
    - rewrite Hz. cbn [Zdigits2]. unfold g. fexp_lia.
    - assert (Hq : m1 = (N / D) / 2 ^ (g - e)).
      { unfold m1. rewrite Z.div_div by lia. reflexivity. }
      rewrite Hq, Zdigits2_div_pow2 by lia.
      replace (Zdigits2 (N / D) - (g - e) + g) with (Zdigits2 (N / D) + e) by lia.
      fold g. lia. }
  set (g2 := fexp prec emax (Zdigits2 M + g)).
  assert (Hg2 : g2 <= g \/ (g2 = g + 1 /\ M mod 2 = 0)).
  { destruct HM as [HM|HM].
    - left. unfold g2. rewrite HM. exact Hgrid.
    - destruct (Zdigits2_succ m1 Hm1) as [Hd|[Hd Hp]].
      + left. unfold g2. rewrite HM, Hd. exact Hgrid.
      + destruct (Z.eq_dec (Zdigits2 m1) 0) as [Hd0|Hd0].
        * left. unfold g2. rewrite HM, Hd, Hd0.
          rewrite Hd0 in Hgrid. clear -Hgrid. fexp_lia.
        * pose proof (Zdigits2_nonneg m1).
          assert (Hev : M mod 2 = 0).
          { rewrite HM, Hp.
            replace (Zdigits2 m1) with (1 + (Zdigits2 m1 - 1)) by lia.
            rewrite Z.pow_add_r by lia. change (2 ^ 1) with 2.
            rewrite Z.mul_comm. apply Z.mod_mul. lia. }
          assert (Hfe : g2 <= g + 1).
          { unfold g2. rewrite HM, Hd. clear -Hgrid. fexp_lia. }
          destruct (Z.le_gt_cases g2 g); [left; assumption|right; split; [lia|exact Hev]]. }
  unfold shr_fexp. fold g2. rewrite shr_record_at_1.
  destruct Hg2 as [Hle|[Heq Hev]].
  - exists M, g. 
    assert (Hshr : shr (shr_record_at M 1) g (g2 - g) = (shr_record_at M 1, g)).
    { destruct (g2 - g) as [|p|p] eqn:E; try reflexivity. lia. }
    rewrite Hshr. rewrite shr_m_at, Z.div_1_r.
    split; [reflexivity|]. split; [assumption|]. split; [lia|].
    rewrite Z.sub_diag. change (2 ^ 0) with 1. lia.
  - exists (M / 2), (g + 1).
    rewrite Heq. replace (g + 1 - g) with 1 by lia.
    rewrite shr_at by lia. rewrite shr_m_at.
    change (1 * 2 ^ 1) with 2.
    split; [reflexivity|]. split; [apply Z.div_pos; lia|]. split; [lia|].
    replace (g + 1 - g) with 1 by lia. change (2 ^ 1) with 2.
    pose proof (Z.div_mod M 2 ltac:(lia)). lia.
Qed.

End MantissaShift.

(** ** From the integer mantissa to the real value *)

Section RealValue.
Local Open Scope R_scope.

Lemma bpow_IZR (k : Z) : (0 <= k)%Z -> bpow k = IZR (2 ^ k).
Proof.
  intros Hk. unfold bpow.
  rewrite <- (Z2Nat.id k Hk), <- pow_powerRZ, <- pow_IZR. reflexivity.
Qed.

Lemma bpow_add (a b : Z) : bpow (a + b) = bpow a * bpow b.
Proof. unfold bpow. apply powerRZ_add. lra. Qed.

Lemma bpow_pos (e : Z) : 0 < bpow e.
Proof. unfold bpow. apply powerRZ_lt. lra. Qed.

Lemma bpow_0 : bpow 0 = 1.
Proof. reflexivity. Qed.

Lemma bpow_1 : bpow 1 = 2.
Proof. unfold bpow. simpl. lra. Qed.

Lemma bpow_ge_1 (k : Z) : (0 <= k)%Z -> 1 <= bpow k.
Proof.
  intros Hk. rewrite bpow_IZR by assumption. apply IZR_le.
  pose proof (Z.pow_pos_nonneg 2 k). lia.
Qed.

Lemma bpow_le (a b : Z) : (a <= b)%Z -> bpow a <= bpow b.
Proof.
  intros Hab. replace b with (a + (b - a))%Z by lia. rewrite bpow_add.
  pose proof (bpow_pos a). pose proof (bpow_ge_1 (b - a) ltac:(lia)). nra.
Qed.

Lemma bpow_lt (a b : Z) : (a < b)%Z -> bpow a < bpow b.
Proof.
  intros Hab. replace b with (a + 1 + (b - a - 1))%Z by lia. rewrite !bpow_add.
  pose proof (bpow_pos a). pose proof (bpow_ge_1 (b - a - 1) ltac:(lia)).
  rewrite bpow_1. nra.
Qed.

Lemma bpow_lt_inv (a b : Z) : bpow a < bpow b -> (a < b)%Z.
Proof.
  intros H. destruct (Z.lt_ge_cases a b) as [|Hge]; [assumption|].
  pose proof (bpow_le b a Hge). lra.
Qed.

Lemma bpow_opp (e : Z) : bpow (- e) = / bpow e.
Proof.
  pose proof (bpow_pos e). pose proof (bpow_add e (- e)) as H1.
  rewrite Z.add_opp_diag_r, bpow_0 in H1.
  apply Rmult_eq_reg_l with (bpow e); [|lra]. rewrite Rinv_r by lra. lra.
Qed.

Lemma Rmult_le_div (a b c : R) : 0 < c -> a * c <= b -> a <= b / c.
Proof.
  intros Hc H. apply Rmult_le_reg_r with c; [assumption|].
  unfold Rdiv. rewrite Rmult_assoc, Rinv_l by lra. lra.
Qed.

Lemma Rdiv_le_mult (a b c : R) : 0 < c -> a <= b * c -> a / c <= b.
Proof.
  intros Hc H. apply Rmult_le_reg_r with c; [assumption|].
  unfold Rdiv. rewrite Rmult_assoc, Rinv_l by lra. lra.
Qed.

Lemma IZR_div_le (N D : Z) :
  (0 <= N)%Z -> (0 < D)%Z -> IZR (N / D) <= IZR N / IZR D.
Proof.
  intros HN HD.
  assert (HDr : 0 < IZR D) by (apply IZR_lt; assumption).
  apply Rmult_le_div; [assumption|].
  rewrite <- mult_IZR. apply IZR_le.
  pose proof (Z.mul_div_le N D HD). lia.
Qed.

(** The magnitude of a scaled quotient bounds its digit count. *)
Lemma digits_below (N D e k : Z) :
  (0 <= N)%Z -> (0 < D)%Z -> (0 < N / D)%Z ->
  IZR N / IZR D * bpow e < bpow k ->
  (Zdigits2 (N / D) + e <= k)%Z.
Proof.
  intros HN HD Hq Hr.
  pose proof (Zdigits2_bounds (N / D) Hq) as [Hlo _].
  pose proof (Zdigits2_nonneg (N / D)) as Hd0.
  assert (Hd1 : (1 <= Zdigits2 (N / D))%Z).
  { destruct (N / D)%Z; simpl in *; lia. }
  apply IZR_le in Hlo. rewrite <- bpow_IZR in Hlo by lia.
  pose proof (IZR_div_le N D HN HD) as Hfl.
  pose proof (bpow_pos e) as He.
  assert (Hlt : bpow (Zdigits2 (N / D) - 1 + e) < bpow k).
  { rewrite bpow_add. nra. }
  apply bpow_lt_inv in Hlt. lia.
Qed.

(** The same on real values: no overflow below [2^1000], an error of at
    most half a unit in the last place, none on integers below 2^53. *)
Lemma binary_round_aux_R (s : bool) (N D e : Z) :
  (0 <= N)%Z -> (0 < D)%Z ->
  (e <= fexp prec emax (Zdigits2 (N / D) + e))%Z ->
  let r := IZR N / IZR D * bpow e in
  let f := binary_round_aux prec emax s (N / D) e (location_of N D) in
  r < bpow 1000 ->
  exists v,
    SFfinite f = true
    /\ SF2R f = sign_R s * v
    /\ 0 <= v
    /\ Rabs (v - r) <= bpow (-53) * r + bpow (-1075)
    /\ (forall K : Z, r = IZR K -> r < bpow 53 -> v = r).
Proof.
  intros HN HD He r f Hr.
  destruct (binary_round_aux_at s N D e HN HD He) as (m' & e' & Hf & Hm' & He' & HM).
  fold f in Hf.
  set (g := fexp prec emax (Zdigits2 (N / D) + e)) in *.
  set (D' := (D * 2 ^ (g - e))%Z) in *.
  set (M := round_half_even N D') in *.
  assert (H2 : (0 < 2 ^ (g - e))%Z) by (apply Z.pow_pos_nonneg; lia).
  assert (HD' : (0 < D')%Z) by (unfold D'; nia).
  destruct (round_half_even_spec N D' HN HD') as (HMq & HMerr & HMex).
  fold M in HMq, HMerr, HMex.
  assert (HDr : 0 < IZR D) by (apply IZR_lt; assumption).
  assert (HD'r : IZR D' = IZR D * bpow (g - e)).
  { unfold D'. rewrite mult_IZR, bpow_IZR by lia. reflexivity. }
  assert (Hbg : bpow g = bpow (g - e) * bpow e).
  { rewrite <- bpow_add. f_equal. lia. }
  pose proof (bpow_pos e) as Hbe. pose proof (bpow_pos g) as Hbgp.
  pose proof (bpow_pos (g - e)) as Hbge.
  assert (Hr0 : 0 <= r).
  { unfold r. apply Rmult_le_pos; [|lra].
    apply Rle_mult_inv_pos; [apply IZR_le; assumption | assumption]. }
  (* the digit count is bounded by the magnitude *)
  assert (Hmag : forall k, r < bpow k -> (g <= Z.max (k - 53) (-1074))%Z).
  { intros k Hk. destruct (Z.eq_dec (N / D) 0) as [Hz|Hnz].
    - revert He. unfold g. rewrite Hz. cbn [Zdigits2]. rewrite !fexp_eq. lia.
    - assert (Hq : (0 < N / D)%Z) by (pose proof (Z.div_pos N D HN HD); lia).
      pose proof (digits_below N D e k HN HD Hq Hk).
      unfold g. rewrite fexp_eq. lia. }
  exists (IZR M * bpow g).
  assert (HMr : IZR M * bpow g = IZR m' * bpow e').
  { rewrite HM, mult_IZR, <- bpow_IZR by lia.
    rewrite Rmult_assoc, <- bpow_add. do 2 f_equal. lia. }
  assert (HM0 : (0 <= M)%Z).
  { pose proof (Z.div_pos N D' HN HD'). lia. }
  split; [|split; [|split; [|split]]].
  - rewrite Hf. destruct m' as [|p|p]; [reflexivity| |lia].
    pose proof (Hmag 1000%Z Hr) as Hg.
    destruct (Z.leb_spec e' (emax - prec)) as [|Hbig]; [reflexivity|].
    unfold emax, prec in Hbig. lia.
  - rewrite HMr, Hf. destruct m' as [|p|p]; [cbn; lra| |lia].
    pose proof (Hmag 1000%Z Hr) as Hg.
    destruct (Z.leb_spec e' (emax - prec)) as [|Hbig];
      [|unfold emax, prec in Hbig; lia].
    cbn [SF2R]. unfold sign_R. destruct s; ring.
  - apply Rmult_le_pos; [apply IZR_le; assumption | lra].
  - assert (Hrr : r = IZR N / IZR D' * bpow g).
    { unfold r. rewrite HD'r, Hbg. field. lra. }
    assert (HD'p : 0 < IZR D') by (apply IZR_lt; assumption).
    assert (Herr : Rabs (IZR M - IZR N / IZR D') <= / 2).
    { assert (Hz : (- D' <= 2 * (M * D' - N) <= D')%Z) by lia.
      destruct Hz as [Hz1 Hz2]. apply IZR_le in Hz1, Hz2.
      rewrite opp_IZR in Hz1.
      rewrite mult_IZR, minus_IZR, mult_IZR in Hz1, Hz2.
      apply Rabs_le. 
      assert (Heq : IZR M - IZR N / IZR D' = (IZR M * IZR D' - IZR N) / IZR D').
      { field. lra. }
      rewrite Heq. split.
      - apply Rmult_le_div; [assumption|]. lra.
      - apply Rdiv_le_mult; [assumption|]. lra. }
    assert (Hhalf : Rabs (IZR M * bpow g - r) <= bpow (g - 1)).
    { rewrite Hrr. replace (IZR M * bpow g - IZR N / IZR D' * bpow g)
        with ((IZR M - IZR N / IZR D') * bpow g) by ring.
      rewrite Rabs_mult, (Rabs_pos_eq (bpow g)) by lra.
      replace (g - 1)%Z with (g + - (1))%Z by lia.
      rewrite bpow_add, bpow_opp, bpow_1. nra. }
    eapply Rle_trans; [exact Hhalf|].
    pose proof (bpow_pos (-1075)) as Heta.
    pose proof (bpow_pos (-53)) as Hu.
    destruct (Z.eq_dec g (-1074)) as [Hg|Hg].
    + rewrite Hg. change (-1074 - 1)%Z with (-1075)%Z. nra.
    + assert (Hnz : (N / D <> 0)%Z).
      { intros Hz. revert He Hg. unfold g. rewrite Hz. cbn [Zdigits2].
        rewrite !fexp_eq. lia. }
      assert (Hq : (0 < N / D)%Z) by (pose proof (Z.div_pos N D HN HD); lia).
      assert (Hgd : g = (Zdigits2 (N / D) + e - 53)%Z).
      { revert Hg. unfold g. rewrite fexp_eq. lia. }
      pose proof (Zdigits2_bounds (N / D) Hq) as [Hlo _].
      assert (Hd1 : (1 <= Zdigits2 (N / D))%Z).
      { destruct (N / D)%Z; simpl in *; lia. }
      apply IZR_le in Hlo. rewrite <- bpow_IZR in Hlo by lia.
      pose proof (IZR_div_le N D HN HD) as Hfl.
      assert (Hlow : bpow (g + 52) <= r).
      { replace (g + 52)%Z with (Zdigits2 (N / D) - 1 + e)%Z by lia.
        rewrite bpow_add. unfold r. nra. }
      replace (g - 1)%Z with (-53 + (g + 52))%Z by lia.
      rewrite bpow_add. nra.
  - intros K HK HK53.
    pose proof (Hmag 53%Z HK53) as Hg.
    assert (Hg0 : (g <= 0)%Z) by lia.
    assert (He0 : (e <= 0)%Z) by lia.
    assert (HNK : (N = K * (D * 2 ^ (- e)))%Z).
    { apply eq_IZR. rewrite !mult_IZR, <- bpow_IZR by lia.
      rewrite <- HK. unfold r. rewrite bpow_opp. field. split; lra. }
    assert (Hdiv : (N = (K * 2 ^ (- g)) * D')%Z).
    { rewrite HNK. unfold D'.
      replace (- e)%Z with (- g + (g - e))%Z by lia.
      rewrite Z.pow_add_r by lia. ring. }
    assert (Hmod : (N mod D' = 0)%Z).
    { rewrite Hdiv. apply Z.mod_mul. lia. }
    specialize (HMex Hmod).
    assert (HMD : (M * D' = N)%Z).
    { rewrite HMex. pose proof (Z.div_mod N D' ltac:(lia)). lia. }
    apply (f_equal IZR) in HMD. rewrite mult_IZR, HD'r in HMD.
    unfold r. rewrite Hbg. rewrite <- HMD. field. lra.
Qed.

End RealValue.

(** ** The four operations of the specification *)

Section SpecOperations.
Local Open Scope R_scope.

Lemma sign_R_abs (s : bool) (v : R) : 0 <= v -> Rabs (sign_R s * v) = v.
Proof.
  intros Hv. unfold sign_R. destruct s.
  - replace (-1 * v) with (- v) by ring. rewrite Rabs_Ropp. now apply Rabs_pos_eq.
  - rewrite Rmult_1_l. now apply Rabs_pos_eq.
Qed.

(** Rounding of a signed magnitude given as a quotient on a grid. *)
Lemma binary_round_aux_rounds (s : bool) (N D e : Z) :
  (0 <= N)%Z -> (0 < D)%Z ->
  (e <= fexp prec emax (Zdigits2 (N / D) + e))%Z ->
  IZR N / IZR D * bpow e < bpow 1000 ->
  SF_rounds (sign_R s * (IZR N / IZR D * bpow e))
    (binary_round_aux prec emax s (N / D) e (location_of N D)).
Proof.
  intros HN HD He Hr.
  destruct (binary_round_aux_R s N D e HN HD He Hr) as (v & Hfin & Hval & Hv & Herr & Hex).
  set (r := IZR N / IZR D * bpow e) in *.
  assert (Hr0 : 0 <= r).
  { unfold r. pose proof (bpow_pos e).
    apply Rmult_le_pos; [|lra].
    apply Rle_mult_inv_pos; [apply IZR_le; assumption | apply IZR_lt; assumption]. }
  split; [exact Hfin|]. rewrite Hval. split.
  - replace (sign_R s * v - sign_R s * r) with (sign_R s * (v - r)) by ring.
    rewrite (sign_R_abs s r) by assumption.
    unfold sign_R. destruct s.
    + replace (-1 * (v - r)) with (- (v - r)) by ring. rewrite Rabs_Ropp. exact Herr.
    + rewrite Rmult_1_l. exact Herr.
  - intros K HK Hlt. rewrite sign_R_abs in Hlt by assumption.
    f_equal. unfold sign_R in HK. destruct s.
    + apply (Hex (- K)%Z); [|assumption]. rewrite opp_IZR. lra.
    + apply (Hex K); [|assumption]. lra.
Qed.

Lemma location_of_1 (N : Z) : location_of N 1 = loc_Exact.
Proof. unfold location_of. now rewrite Z.mod_1_r. Qed.

Lemma binary_round_aux_exact_rounds (s : bool) (N e : Z) :
  (0 <= N)%Z ->
  (e <= fexp prec emax (Zdigits2 N + e))%Z ->
  IZR N * bpow e < bpow 1000 ->
  SF_rounds (sign_R s * (IZR N * bpow e))
    (binary_round_aux prec emax s N e loc_Exact).
Proof.
  intros HN He Hr.
  pose proof (binary_round_aux_rounds s N 1 e HN ltac:(lia)) as H.
  rewrite Z.div_1_r, location_of_1 in H.
  replace (IZR N / 1) with (IZR N) in H by field.
  apply H; assumption.
Qed.

Lemma pos_iter_xO (m d : positive) :
  Zpos (Pos.iter xO m d) = (Zpos m * 2 ^ Zpos d)%Z.
Proof.
  induction d as [|d IH] using Pos.peano_ind.
  - cbn. lia.
  - rewrite Pos.iter_succ, Pos2Z.inj_xO, IH, Pos2Z.inj_succ, Z.pow_succ_r by lia. ring.
Qed.

Lemma shl_align_spec (m : positive) (e e' : Z) :
  let '(mz, ez) := shl_align m e e' in
  ez = Z.min e e' /\ Zpos mz = (Zpos m * 2 ^ (e - ez))%Z.
Proof.
  unfold shl_align. destruct (e' - e)%Z as [|d|d] eqn:E.
  - assert (e' = e) by lia. subst. rewrite Z.min_id, Z.sub_diag. cbn. lia.
  - rewrite Z.min_l by lia. rewrite Z.sub_diag. cbn. lia.
  - rewrite Z.min_r by lia. split; [reflexivity|].
    rewrite pos_iter_xO. f_equal. f_equal. lia.
Qed.

Lemma binary_round_rounds (s : bool) (m : positive) (e : Z) :
  IZR (Zpos m) * bpow e < bpow 1000 ->
  SF_rounds (sign_R s * (IZR (Zpos m) * bpow e)) (binary_round prec emax s m e).
Proof.
  intros Hr. unfold binary_round.
  pose proof (shl_align_spec m e (fexp prec emax (Zpos (digits2_pos m) + e))) as Hal.
  destruct (shl_align m e (fexp prec emax (Zpos (digits2_pos m) + e))) as [mz ez].
  destruct Hal as [Hez Hmz].
  assert (Hsh : (0 <= e - ez)%Z) by lia.
  assert (Hval : IZR (Zpos mz) * bpow ez = IZR (Zpos m) * bpow e).
  { rewrite Hmz, mult_IZR, <- bpow_IZR by lia.
    rewrite Rmult_assoc, <- bpow_add. do 2 f_equal. lia. }
  rewrite <- Hval in *.
  apply binary_round_aux_exact_rounds; [lia| |assumption].
  rewrite Hmz, Zdigits2_mul_pow2 by lia.
  replace (Zdigits2 (Zpos m) + (e - ez) + ez)%Z with (Zdigits2 (Zpos m) + e)%Z by lia.
  cbn [Zdigits2]. lia.
Qed.

Lemma binary_normalize_rounds (M e : Z) :
  Rabs (IZR M * bpow e) < bpow 1000 ->
  SF_rounds (IZR M * bpow e) (binary_normalize prec emax M e false).
Proof.
  intros Hr. pose proof (bpow_pos e) as Hbe.
  destruct M as [|m|m]; cbn [binary_normalize].
  - rewrite Rmult_0_l. split; [reflexivity|]. cbn [SF2R].
    pose proof (bpow_pos (-1075)). pose proof (bpow_pos (-53)).
    split; [|reflexivity].
    rewrite Rminus_diag, Rabs_R0. lra.
  - assert (H0 : 0 < IZR (Zpos m)) by (apply IZR_lt; lia).
    rewrite Rabs_pos_eq in Hr by nra.
    pose proof (binary_round_rounds false m e Hr) as H.
    unfold sign_R in H. rewrite Rmult_1_l in H. exact H.
  - assert (H0 : 0 < IZR (Zpos m)) by (apply IZR_lt; lia).
    change (Zneg m) with (- Zpos m)%Z in *. rewrite opp_IZR in *.
    replace (- IZR (Zpos m) * bpow e) with (- (IZR (Zpos m) * bpow e)) in * by ring.
    rewrite Rabs_Ropp, Rabs_pos_eq in Hr by nra.
    pose proof (binary_round_rounds true m e Hr) as H.
    unfold sign_R in H.
    replace (-1 * (IZR (Zpos m) * bpow e)) with (- (IZR (Zpos m) * bpow e)) in H by ring.
    exact H.
Qed.

Lemma SF_rounds_exact (f : spec_float) :
  SFfinite f = true -> SF_rounds (SF2R f) f.
Proof.
  intros Hf. split; [assumption|]. split; [|reflexivity].
  rewrite Rminus_diag, Rabs_R0.
  pose proof (bpow_pos (-1075)). pose proof (bpow_pos (-53)).
  pose proof (Rabs_pos (SF2R f)). nra.
Qed.

Lemma SF_rounds_ext (r r' : R) (f : spec_float) :
  r = r' -> SF_rounds r f -> SF_rounds r' f.
Proof. now intros ->. Qed.

Lemma valid_finite (s : bool) (m : positive) (e : Z) :
  valid_binary (S754_finite s m e) = true ->
  fexp prec emax (Zdigits2 (Zpos m) + e) = e /\ (e <= 971)%Z.
Proof.
  cbn [SpecFloat.valid_binary]. unfold bounded, canonical_mantissa.
  intros H. apply andb_true_iff in H as [H1 H2].
  apply Z.eqb_eq in H1. apply Z.leb_le in H2.
  split; [exact H1|]. exact H2.
Qed.

Lemma SF2R_finite (s : bool) (m : positive) (e : Z) :
  SF2R (S754_finite s m e) = sign_R s * (IZR (Zpos m) * bpow e).
Proof. cbn [SF2R]. unfold sign_R. ring. Qed.

Lemma cond_Zopp_R (s : bool) (m : Z) : IZR (cond_Zopp s m) = sign_R s * IZR m.
Proof. unfold cond_Zopp, sign_R. destruct s; [rewrite opp_IZR|]; ring. Qed.

Lemma shl_align_fst_R (m : positive) (e ez : Z) :
  (ez <= e)%Z ->
  IZR (Zpos (fst (shl_align m e ez))) * bpow ez = IZR (Zpos m) * bpow e.
Proof.
  intros Hle. pose proof (shl_align_spec m e ez) as H.
  destruct (shl_align m e ez) as [mz ez']. destruct H as [H1 H2].
  cbn [fst]. rewrite Z.min_r in H1 by lia. subst ez'.
  rewrite H2, mult_IZR, <- bpow_IZR by lia.
  rewrite Rmult_assoc, <- bpow_add. do 2 f_equal. lia.
Qed.

(** Addition, subtraction, multiplication and division of finite
    floats return the rounding of the exact result. *)
Lemma SFadd_rounds (x y : spec_float) :
  SFfinite x = true -> SFfinite y = true ->
  Rabs (SF2R x + SF2R y) < bpow 1000 ->
  SF_rounds (SF2R x + SF2R y) (SFadd prec emax x y).
Proof.
  intros Hx Hy Hr.
  destruct x as [sx|sx| |sx mx ex]; try discriminate;
    destruct y as [sy|sy| |sy my ey]; try discriminate.
  - apply (SF_rounds_ext 0); [cbn; lra|].
    cbn [SFadd]. destruct sx, sy; apply (SF_rounds_exact (S754_zero _)); reflexivity.
  - cbn [SFadd]. apply (SF_rounds_ext (SF2R (S754_finite sy my ey))); [cbn [SF2R]; lra|].
    now apply SF_rounds_exact.
  - cbn [SFadd]. apply (SF_rounds_ext (SF2R (S754_finite sx mx ex))); [cbn [SF2R]; lra|].
    now apply SF_rounds_exact.
  - cbn [SFadd].
    set (ez := Z.min ex ey).
    set (M := (cond_Zopp sx (Zpos (fst (shl_align mx ex ez)))
               + cond_Zopp sy (Zpos (fst (shl_align my ey ez))))%Z).
    assert (HM : IZR M * bpow ez
                 = SF2R (S754_finite sx mx ex) + SF2R (S754_finite sy my ey)).
    { unfold M. rewrite plus_IZR, !cond_Zopp_R, !SF2R_finite.
      rewrite <- (shl_align_fst_R mx ex ez), <- (shl_align_fst_R my ey ez) by (unfold ez; lia).
      ring. }
    rewrite <- HM in *. now apply binary_normalize_rounds.
Qed.

Lemma SFsub_rounds (x y : spec_float) :
  SFfinite x = true -> SFfinite y = true ->
  Rabs (SF2R x - SF2R y) < bpow 1000 ->
  SF_rounds (SF2R x - SF2R y) (SFsub prec emax x y).
Proof.
  intros Hx Hy Hr.
  destruct x as [sx|sx| |sx mx ex]; try discriminate;
    destruct y as [sy|sy| |sy my ey]; try discriminate.
  - apply (SF_rounds_ext 0); [cbn; lra|].
    cbn [SFsub]. destruct sx, sy; apply (SF_rounds_exact (S754_zero _)); reflexivity.
  - cbn [SFsub].
    apply (SF_rounds_ext (SF2R (S754_finite (negb sy) my ey)));
      [|now apply SF_rounds_exact].
    cbn [SF2R]. destruct sy; cbn [negb]; lra.
  - cbn [SFsub]. apply (SF_rounds_ext (SF2R (S754_finite sx mx ex))); [cbn [SF2R]; lra|].
    now apply SF_rounds_exact.
  - cbn [SFsub].
    set (ez := Z.min ex ey).
    set (M := (cond_Zopp sx (Zpos (fst (shl_align mx ex ez)))
               - cond_Zopp sy (Zpos (fst (shl_align my ey ez))))%Z).
    assert (HM : IZR M * bpow ez
                 = SF2R (S754_finite sx mx ex) - SF2R (S754_finite sy my ey)).
    { unfold M. rewrite minus_IZR, !cond_Zopp_R, !SF2R_finite.
      rewrite <- (shl_align_fst_R mx ex ez), <- (shl_align_fst_R my ey ez) by (unfold ez; lia).
      ring. }
    rewrite <- HM in *. now apply binary_normalize_rounds.
Qed.

Lemma Zdigits2_mul_ge (a b : Z) :
  (0 < a)%Z -> (0 < b)%Z -> (Zdigits2 a + Zdigits2 b - 1 <= Zdigits2 (a * b))%Z.
Proof.
  intros Ha Hb.
  pose proof (Zdigits2_bounds a Ha) as [Hla _].
  pose proof (Zdigits2_bounds b Hb) as [Hlb _].
  assert (Hda : (1 <= Zdigits2 a)%Z) by (destruct a; simpl in *; lia).
  assert (Hdb : (1 <= Zdigits2 b)%Z) by (destruct b; simpl in *; lia).
  replace (Zdigits2 a + Zdigits2 b - 1)%Z
    with ((Zdigits2 a - 1) + (Zdigits2 b - 1) + 1)%Z by lia.
  apply Zdigits2_ge_pow2; [lia|].
  rewrite Z.pow_add_r by lia.
  assert (0 < 2 ^ (Zdigits2 a - 1))%Z by (apply Z.pow_pos_nonneg; lia).
  assert (0 < 2 ^ (Zdigits2 b - 1))%Z by (apply Z.pow_pos_nonneg; lia).
  nia.
Qed.

Lemma sign_R_xorb (a b : bool) : sign_R (xorb a b) = sign_R a * sign_R b.
Proof. destruct a, b; unfold sign_R; cbn; lra. Qed.

Lemma SFmul_rounds (x y : spec_float) :
  SFfinite x = true -> SFfinite y = true ->
  valid_binary x = true -> valid_binary y = true ->
  Rabs (SF2R x * SF2R y) < bpow 1000 ->
  SF_rounds (SF2R x * SF2R y) (SFmul prec emax x y).
Proof.
  intros Hx Hy Vx Vy Hr.
  destruct x as [sx|sx| |sx mx ex]; try discriminate;
    destruct y as [sy|sy| |sy my ey]; try discriminate;
    try (apply (SF_rounds_ext 0); [cbn [SF2R]; lra|];
         cbn [SFmul]; apply (SF_rounds_exact (S754_zero _)); reflexivity).
  cbn [SFmul].
  apply valid_finite in Vx as [Cx _]. apply valid_finite in Vy as [Cy _].
  pose proof (bpow_pos ex). pose proof (bpow_pos ey).
  assert (Hmx : 0 < IZR (Zpos mx)) by (apply IZR_lt; lia).
  assert (Hmy : 0 < IZR (Zpos my)) by (apply IZR_lt; lia).
  assert (HM : SF2R (S754_finite sx mx ex) * SF2R (S754_finite sy my ey)
               = sign_R (xorb sx sy) * (IZR (Zpos (mx * my)) * bpow (ex + ey))).
  { rewrite !SF2R_finite, sign_R_xorb, Pos2Z.inj_mul, mult_IZR, bpow_add. ring. }
  rewrite HM in *.
  apply binary_round_aux_exact_rounds; [lia| |].
  - pose proof (Zdigits2_mul_ge (Zpos mx) (Zpos my) ltac:(lia) ltac:(lia)) as Hd.
    rewrite Pos2Z.inj_mul.
    assert (Hdx : (1 <= Zdigits2 (Zpos mx))%Z) by (simpl; lia).
    assert (Hdy : (1 <= Zdigits2 (Zpos my))%Z) by (simpl; lia).
    revert Cx Cy Hd Hdx Hdy.
    generalize (Zdigits2 (Zpos mx * Zpos my)) (Zdigits2 (Zpos mx)) (Zdigits2 (Zpos my)).
    intros. rewrite fexp_eq in *. lia.
  - rewrite sign_R_abs in Hr; [exact Hr|].
    apply Rmult_le_pos; [apply IZR_le; lia|]. pose proof (bpow_pos (ex + ey)). lra.
Qed.

Lemma new_location_spec (m2 N : Z) :
  (0 < m2)%Z -> new_location m2 (N mod m2) = location_of N m2.
Proof.
  intros Hm. pose proof (Z.mod_pos_bound N m2 Hm) as Hr.
  unfold location_of, new_location, new_location_even, new_location_odd.
  destruct (Z.even m2) eqn:E; [reflexivity|].
  destruct (Z.eqb_spec (N mod m2) 0); [reflexivity|].
  rewrite <- Z.negb_odd in E. apply negb_false_iff in E.
  apply Z.odd_spec in E as [k Hk].
  destruct (Z.compare_spec (2 * (N mod m2) + 1) m2);
    destruct (Z.compare_spec (2 * (N mod m2)) m2); try reflexivity; lia.
Qed.

Lemma SFdiv_rounds (x y : spec_float) :
  SFfinite x = true -> SFfinite y = true ->
  valid_binary x = true -> valid_binary y = true ->
  SF2R y <> 0 ->
  Rabs (SF2R x / SF2R y) < bpow 1000 ->
  SF_rounds (SF2R x / SF2R y) (SFdiv prec emax x y).
Proof.
  intros Hx Hy Vx Vy Hy0 Hr.
  destruct y as [sy|sy| |sy my ey]; try discriminate; [cbn in Hy0; lra|].
  destruct x as [sx|sx| |sx mx ex]; try discriminate.
  { apply (SF_rounds_ext 0); [cbn [SF2R]; unfold Rdiv; ring|].
    cbn [SFdiv]. apply (SF_rounds_exact (S754_zero _)); reflexivity. }
  cbn [SFdiv]. unfold SFdiv_core_binary.
  set (d1 := Zdigits2 (Zpos mx)). set (d2 := Zdigits2 (Zpos my)).
  set (e' := Z.min (fexp prec emax (d1 + ex - (d2 + ey))) (ex - ey)).
  set (sh := (ex - ey - e')%Z).
  assert (Hsh : (0 <= sh)%Z) by (unfold sh, e'; lia).
  set (m' := match sh with
             | Zpos _ => Z.shiftl (Zpos mx) sh
             | Z0 => Zpos mx
             | Zneg _ => 0%Z
             end).
  assert (Hm' : m' = (Zpos mx * 2 ^ sh)%Z).
  { unfold m'. destruct sh as [|p|p] eqn:E; [cbn; lia| |lia].
    rewrite Z.shiftl_mul_pow2 by lia. reflexivity. }
  clearbody m'.
  assert (H2s : (0 < 2 ^ sh)%Z) by (apply Z.pow_pos_nonneg; lia).
  assert (Hm'0 : (0 < m')%Z) by nia.
  pose proof (Z.div_mod m' (Zpos my) ltac:(lia)) as Hdm.
  assert (Hqr : Z.div_eucl m' (Zpos my) = ((m' / Zpos my)%Z, (m' mod Zpos my)%Z)).
  { unfold Z.div, Z.modulo. destruct (Z.div_eucl m' (Zpos my)); reflexivity. }
  rewrite Hqr, new_location_spec by lia.
  pose proof (bpow_pos ex). pose proof (bpow_pos ey). pose proof (bpow_pos e').
  assert (Hmx : 0 < IZR (Zpos mx)) by (apply IZR_lt; lia).
  assert (Hmy : 0 < IZR (Zpos my)) by (apply IZR_lt; lia).
  assert (HM : SF2R (S754_finite sx mx ex) / SF2R (S754_finite sy my ey)
               = sign_R (xorb sx sy) * (IZR m' / IZR (Zpos my) * bpow e')).
  { rewrite !SF2R_finite, sign_R_xorb, Hm', mult_IZR, <- bpow_IZR by lia.
    replace ex with (sh + e' + ey)%Z at 1 by (unfold sh; lia).
    rewrite !bpow_add. unfold sign_R. destruct sx, sy; field; lra. }
  rewrite HM in *.
  assert (Hpos : 0 <= IZR m' / IZR (Zpos my) * bpow e').
  { apply Rmult_le_pos; [|lra]. apply Rle_mult_inv_pos; [apply IZR_le; lia | lra]. }
  rewrite sign_R_abs in Hr by assumption.
  apply binary_round_aux_rounds; [lia|lia| |exact Hr].
  destruct (Z.le_gt_cases e' (-1074)) as [Hlow|Hhigh].
  { rewrite fexp_eq. lia. }
  assert (Hfe : (e' <= d1 + ex - (d2 + ey) - 53)%Z).
  { revert Hhigh. unfold e'. rewrite fexp_eq. lia. }
  pose proof (Zdigits2_bounds (Zpos mx) ltac:(lia)) as [Hl1 _].
  pose proof (Zdigits2_bounds (Zpos my) ltac:(lia)) as [_ Hh2].
  fold d1 in Hl1. fold d2 in Hh2.
  assert (Hd1 : (1 <= d1)%Z) by (unfold d1; simpl; lia).
  assert (Hd2 : (1 <= d2)%Z) by (unfold d2; simpl; lia).
  assert (Hq : (2 ^ (d1 + sh - 1 - d2) <= m' / Zpos my)%Z).
  { apply Z.div_le_lower_bound; [lia|].
    assert (Heq : (2 ^ (d1 - 1) * 2 ^ sh = 2 ^ (d1 + sh - 1 - d2) * 2 ^ d2)%Z).
    { rewrite <- !Z.pow_add_r by (unfold sh in *; lia). f_equal. lia. }
    assert (0 < 2 ^ (d1 + sh - 1 - d2))%Z
      by (apply Z.pow_pos_nonneg; unfold sh in *; lia).
    nia. }
  apply Zdigits2_ge_pow2 in Hq; [|unfold sh in *; lia].
  rewrite fexp_eq. unfold sh in *. lia.
Qed.

End SpecOperations.

(** ** Comparison, and the same facts on primitive floats *)

Section PrimitiveFloats.
Local Open Scope R_scope.

(** Among canonical floats the larger exponent is the larger value. *)
Lemma canonical_lt (m1 m2 : positive) (e1 e2 : Z) :
  fexp prec emax (Zdigits2 (Zpos m1) + e1) = e1 ->
  fexp prec emax (Zdigits2 (Zpos m2) + e2) = e2 ->
  (e1 < e2)%Z ->
  IZR (Zpos m1) * bpow e1 < IZR (Zpos m2) * bpow e2.
Proof.
  intros C1 C2 He.
  pose proof (Zdigits2_bounds (Zpos m1) ltac:(lia)) as [_ Hh1].
  pose proof (Zdigits2_bounds (Zpos m2) ltac:(lia)) as [Hl2 _].
  assert (Hd1 : (1 <= Zdigits2 (Zpos m1))%Z) by (simpl; lia).
  assert (Hd2 : (1 <= Zdigits2 (Zpos m2))%Z) by (simpl; lia).
  rewrite fexp_eq in C1, C2.
  assert (Hd2' : Zdigits2 (Zpos m2) = 53%Z) by lia.
  assert (Hd1' : (Zdigits2 (Zpos m1) <= 53)%Z) by lia.
  rewrite Hd2' in Hl2.
  assert (Hh1' : (Zpos m1 < 2 ^ 53)%Z).
  { eapply Z.lt_le_trans; [exact Hh1|]. apply Z.pow_le_mono_r; lia. }
  apply IZR_lt in Hh1'. apply IZR_le in Hl2.
  rewrite <- bpow_IZR in Hh1', Hl2 by lia.
  pose proof (bpow_pos e1). pose proof (bpow_pos e2).
  assert (Hb : bpow (53 + e1) <= bpow (53 - 1 + e2)) by (apply bpow_le; lia).
  rewrite !bpow_add in Hb.
  assert (Hm1 : 0 < IZR (Zpos m1)) by (apply IZR_lt; lia).
  nra.
Qed.

Lemma SF2R_pos (m : positive) (e : Z) : 0 < IZR (Zpos m) * bpow e.
Proof.
  pose proof (bpow_pos e). assert (0 < IZR (Zpos m)) by (apply IZR_lt; lia). nra.
Qed.

Lemma SFcompare_R (x y : spec_float) :
  SFfinite x = true -> SFfinite y = true ->
  valid_binary x = true -> valid_binary y = true ->
  SFcompare_R_spec x y.
Proof.
  intros Hx Hy Vx Vy. unfold SFcompare_R_spec.
  destruct x as [sx|sx| |sx mx ex]; try discriminate;
    destruct y as [sy|sy| |sy my ey]; try discriminate; cbn [SFcompare].
  - reflexivity.
  - pose proof (SF2R_pos my ey). destruct sy; cbn [SF2R]; nra.
  - pose proof (SF2R_pos mx ex). destruct sx; cbn [SF2R]; nra.
  - apply valid_finite in Vx as [Cx _]. apply valid_finite in Vy as [Cy _].
    pose proof (SF2R_pos mx ex). pose proof (SF2R_pos my ey).
    rewrite !SF2R_finite. unfold sign_R.
    destruct sx, sy; try lra.
    + destruct (Z.compare_spec ex ey) as [He|He|He].
      * subst ey. rewrite Pos.compare_cont_spec. cbn [Pos.switch_Eq].
        pose proof (bpow_pos ex).
        destruct (Pos.compare_spec mx my) as [Hm|Hm|Hm]; cbn [CompOpp Pos.switch_Eq].
        -- now subst.
        -- assert (IZR (Zpos mx) < IZR (Zpos my)) by (apply IZR_lt; lia). nra.
        -- assert (IZR (Zpos my) < IZR (Zpos mx)) by (apply IZR_lt; lia). nra.
      * pose proof (canonical_lt mx my ex ey Cx Cy He). lra.
      * pose proof (canonical_lt my mx ey ex Cy Cx He). lra.
    + destruct (Z.compare_spec ex ey) as [He|He|He].
      * subst ey. rewrite Pos.compare_cont_spec. cbn [Pos.switch_Eq].
        pose proof (bpow_pos ex).
        destruct (Pos.compare_spec mx my) as [Hm|Hm|Hm]; cbn [CompOpp Pos.switch_Eq].
        -- now subst.
        -- assert (IZR (Zpos mx) < IZR (Zpos my)) by (apply IZR_lt; lia). nra.
        -- assert (IZR (Zpos my) < IZR (Zpos mx)) by (apply IZR_lt; lia). nra.
      * pose proof (canonical_lt mx my ex ey Cx Cy He). lra.
      * pose proof (canonical_lt my mx ey ex Cy Cx He). lra.
Qed.

Lemma ltb_F2R (x y : float) :
  is_finite x = true -> is_finite y = true ->
  (x <? y)%float = true <-> F2R x < F2R y.
Proof.
  intros Hx Hy. rewrite FloatAxioms.ltb_spec. unfold SFltb, F2R.
  pose proof (SFcompare_R (Prim2SF x) (Prim2SF y) Hx Hy
                (Prim2SF_valid x) (Prim2SF_valid y)) as H.
  unfold SFcompare_R_spec in H.
  destruct (SFcompare (Prim2SF x) (Prim2SF y)) as [[| |]|];
    split; intros; try reflexivity; try discriminate; try lra; contradiction.
Qed.

Lemma add_rounds (x y : float) :
  is_finite x = true -> is_finite y = true ->
  Rabs (F2R x + F2R y) < bpow 1000 ->
  rounds (F2R x + F2R y) (x + y).
Proof.
  intros Hx Hy Hr. unfold rounds. rewrite FloatAxioms.add_spec. now apply SFadd_rounds.
Qed.

Lemma sub_rounds (x y : float) :
  is_finite x = true -> is_finite y = true ->
  Rabs (F2R x - F2R y) < bpow 1000 ->
  rounds (F2R x - F2R y) (x - y).
Proof.
  intros Hx Hy Hr. unfold rounds. rewrite FloatAxioms.sub_spec. now apply SFsub_rounds.
Qed.

Lemma mul_rounds (x y : float) :
  is_finite x = true -> is_finite y = true ->
  Rabs (F2R x * F2R y) < bpow 1000 ->
  rounds (F2R x * F2R y) (x * y).
Proof.
  intros Hx Hy Hr. unfold rounds. rewrite FloatAxioms.mul_spec.
  apply SFmul_rounds; auto using Prim2SF_valid.
Qed.

Lemma div_rounds (x y : float) :
  is_finite x = true -> is_finite y = true ->
  F2R y <> 0 ->
  Rabs (F2R x / F2R y) < bpow 1000 ->
  rounds (F2R x / F2R y) (x / y).
Proof.
  intros Hx Hy Hy0 Hr. unfold rounds. rewrite FloatAxioms.div_spec.
  apply SFdiv_rounds; auto using Prim2SF_valid.
Qed.

Lemma bpow_53 : bpow 53 = 9007199254740992.
Proof. rewrite bpow_IZR by lia. reflexivity. Qed.

Lemma of_uint63_exact (n : Z) :
  (0 <= n < 2 ^ 53)%Z ->
  is_finite (of_uint63 (Uint63.of_Z n)) = true
  /\ F2R (of_uint63 (Uint63.of_Z n)) = IZR n.
Proof.
  intros Hn. unfold is_finite, F2R. rewrite of_uint63_spec.
  rewrite Uint63.of_Z_spec.
  rewrite Z.mod_small by (change wB with (2 ^ 63)%Z; lia).
  assert (Hlt : IZR n < bpow 53).
  { rewrite bpow_IZR by lia. apply IZR_lt. lia. }
  assert (Hge : 0 <= IZR n) by (apply IZR_le; lia).
  pose proof (binary_normalize_rounds n 0) as H.
  rewrite bpow_0, Rmult_1_r in H.
  assert (Hb : bpow 53 <= bpow 1000) by (apply bpow_le; lia).
  destruct H as (Hf & _ & Hex).
  { rewrite Rabs_pos_eq by assumption. lra. }
  split; [exact Hf|]. apply (Hex n); [reflexivity|].
  rewrite Rabs_pos_eq by assumption. assumption.
Qed.

(** Integers below 2^53 convert exactly. *)
Lemma float_of_Z_exact (n : Z) :
  (- 2 ^ 53 < n < 2 ^ 53)%Z ->
  is_finite (float_of_Z n) = true /\ F2R (float_of_Z n) = IZR n.
Proof.
  intros Hn. unfold float_of_Z.
  destruct (Z.ltb_spec n 0) as [Hneg|Hpos].
  - destruct (of_uint63_exact (- n) ltac:(lia)) as [Hf Hv].
    unfold is_finite, F2R in *. rewrite FloatAxioms.opp_spec.
    destruct (Prim2SF (of_uint63 (of_Z (- n)))) as [s|s| |s m e];
      try discriminate; cbn [SFopp SFfinite SF2R] in *.
    + split; [reflexivity|]. rewrite opp_IZR in Hv. lra.
    + split; [reflexivity|]. rewrite opp_IZR in Hv. destruct s; cbn [negb]; lra.
  - apply of_uint63_exact. lia.
Qed.

End PrimitiveFloats.

(* ================================================================= *)
(** * The variance computed by [np.var] against the exact one *)

Section Variance.
Local Open Scope R_scope.

Lemma bpow_m53 : bpow (-53) = / 9007199254740992.
Proof. change (-53)%Z with (- (53))%Z. rewrite bpow_opp, bpow_53. reflexivity. Qed.

Lemma bpow_m1075_le : bpow (-1075) <= / 1152921504606846976.
Proof.
  apply Rle_trans with (bpow (-60)); [apply bpow_le; lia|].
  change (-60)%Z with (- (60))%Z. rewrite bpow_opp, bpow_IZR by lia. apply Rle_refl.
Qed.

Lemma big_lt_bpow_1000 (r : R) : Rabs r <= 1099511627776 -> Rabs r < bpow 1000.
Proof.
  intros H. apply Rle_lt_trans with (bpow 40).
  - rewrite bpow_IZR by lia. exact H.
  - apply bpow_lt. lia.
Qed.

Lemma Rabs_le_bounds (x a : R) : Rabs x <= a -> - a <= x <= a.
Proof.
  intros H. pose proof (Rle_abs x) as H1. pose proof (Rle_abs (- x)) as H2.
  rewrite Rabs_Ropp in H2. lra.
Qed.

(** The error of one rounding, for a result of magnitude at most [B]. *)
Lemma rounds_err (r : R) (x : float) (B : R) :
  rounds r x -> - B <= r <= B ->
  is_finite x = true
  /\ - (B / 9007199254740992 + / 1152921504606846976) <= F2R x - r
     <= B / 9007199254740992 + / 1152921504606846976.
Proof.
  intros (Hf & Herr & _) HB. split; [exact Hf|].
  fold (F2R x) in Herr. rewrite bpow_m53 in Herr.
  pose proof bpow_m1075_le as Heta.
  assert (Hr : Rabs r <= B) by (apply Rabs_le; lra).
  apply Rabs_le_bounds. 
  eapply Rle_trans; [exact Herr|].
  assert (0 <= Rabs r) by apply Rabs_pos. lra.
Qed.

(** A rounding whose exact result is a small integer is exact. *)
Lemma rounds_int (r : R) (x : float) (K : Z) :
  rounds r x -> r = IZR K -> (- 2 ^ 53 < K < 2 ^ 53)%Z ->
  is_finite x = true /\ F2R x = IZR K.
Proof.
  intros (Hf & _ & Hex) HK Hb. split; [exact Hf|].
  fold (F2R x) in Hex. rewrite <- HK. apply (Hex K HK).
  rewrite HK, <- abs_IZR, bpow_53. apply IZR_lt. lia.
Qed.

Lemma F2R_zero : is_finite 0%float = true /\ F2R 0%float = 0.
Proof. split; reflexivity. Qed.

(** ** Operations whose exact result is a small integer *)

Lemma IZR_big (K : Z) : (- 2 ^ 40 <= K <= 2 ^ 40)%Z -> Rabs (IZR K) <= 1099511627776.
Proof.
  intros [H1 H2]. apply Rabs_le. apply IZR_le in H1, H2.
  change (IZR (- 2 ^ 40)) with (-1099511627776) in H1.
  change (IZR (2 ^ 40)) with 1099511627776 in H2. lra.
Qed.

Lemma add_int (a b : float) (A B : Z) :
  is_finite a = true -> is_finite b = true ->
  F2R a = IZR A -> F2R b = IZR B -> (- 2 ^ 40 <= A + B <= 2 ^ 40)%Z ->
  is_finite (a + b) = true /\ F2R (a + b) = IZR (A + B).
Proof.
  intros Ha Hb HA HB Hr.
  assert (Heq : F2R a + F2R b = IZR (A + B)) by (rewrite plus_IZR; lra).
  apply (rounds_int (F2R a + F2R b)); [|exact Heq|lia].
  apply add_rounds; try assumption.
  rewrite Heq. now apply big_lt_bpow_1000, IZR_big.
Qed.

Lemma sub_int (a b : float) (A B : Z) :
  is_finite a = true -> is_finite b = true ->
  F2R a = IZR A -> F2R b = IZR B -> (- 2 ^ 40 <= A - B <= 2 ^ 40)%Z ->
  is_finite (a - b) = true /\ F2R (a - b) = IZR (A - B).
Proof.
  intros Ha Hb HA HB Hr.
  assert (Heq : F2R a - F2R b = IZR (A - B)) by (rewrite minus_IZR; lra).
  apply (rounds_int (F2R a - F2R b)); [|exact Heq|lia].
  apply sub_rounds; try assumption.
  rewrite Heq. now apply big_lt_bpow_1000, IZR_big.
Qed.

Lemma mul_int (a b : float) (A B : Z) :
  is_finite a = true -> is_finite b = true ->
  F2R a = IZR A -> F2R b = IZR B -> (- 2 ^ 40 <= A * B <= 2 ^ 40)%Z ->
  is_finite (a * b) = true /\ F2R (a * b) = IZR (A * B).
Proof.
  intros Ha Hb HA HB Hr.
  assert (Heq : F2R a * F2R b = IZR (A * B)) by (rewrite mult_IZR, HA, HB; reflexivity).
  apply (rounds_int (F2R a * F2R b)); [|exact Heq|lia].
  apply mul_rounds; try assumption.
  rewrite Heq. now apply big_lt_bpow_1000, IZR_big.
Qed.

Lemma div_int (a b : float) (B Q : Z) :
  is_finite a = true -> is_finite b = true ->
  F2R a = IZR (B * Q) -> F2R b = IZR B -> B <> 0%Z ->
  (- 2 ^ 40 <= Q <= 2 ^ 40)%Z ->
  is_finite (a / b) = true /\ F2R (a / b) = IZR Q.
Proof.
  intros Ha Hb HA HB HB0 Hr.
  assert (HBr : IZR B <> 0) by (apply not_0_IZR; assumption).
  assert (Heq : F2R a / F2R b = IZR Q).
  { rewrite HA, HB, mult_IZR. field. assumption. }
  apply (rounds_int (F2R a / F2R b)); [|exact Heq|lia].
  apply div_rounds; try assumption; [rewrite HB; assumption|].
  rewrite Heq. now apply big_lt_bpow_1000, IZR_big.
Qed.

(** ** Operations with a bounded result: one rounding error each *)

Lemma add_err (a b : float) (B : R) :
  is_finite a = true -> is_finite b = true ->
  - B <= F2R a + F2R b <= B -> B <= 1099511627776 ->
  is_finite (a + b) = true
  /\ - err B <= F2R (a + b) - (F2R a + F2R b) <= err B.
Proof.
  intros Ha Hb Hr HB. apply rounds_err; [|assumption].
  apply add_rounds; try assumption.
  apply big_lt_bpow_1000, Rabs_le. lra.
Qed.

Lemma sub_err (a b : float) (B : R) :
  is_finite a = true -> is_finite b = true ->
  - B <= F2R a - F2R b <= B -> B <= 1099511627776 ->
  is_finite (a - b) = true
  /\ - err B <= F2R (a - b) - (F2R a - F2R b) <= err B.
Proof.
  intros Ha Hb Hr HB. apply rounds_err; [|assumption].
  apply sub_rounds; try assumption.
  apply big_lt_bpow_1000, Rabs_le. lra.
Qed.

Lemma mul_err (a b : float) (B : R) :
  is_finite a = true -> is_finite b = true ->
  - B <= F2R a * F2R b <= B -> B <= 1099511627776 ->
  is_finite (a * b) = true
  /\ - err B <= F2R (a * b) - (F2R a * F2R b) <= err B.
Proof.
  intros Ha Hb Hr HB. apply rounds_err; [|assumption].
  apply mul_rounds; try assumption.
  apply big_lt_bpow_1000, Rabs_le. lra.
Qed.

Lemma div_err (a b : float) (B : R) :
  is_finite a = true -> is_finite b = true -> F2R b <> 0 ->
  - B <= F2R a / F2R b <= B -> B <= 1099511627776 ->
  is_finite (a / b) = true
  /\ - err B <= F2R (a / b) - (F2R a / F2R b) <= err B.
Proof.
  intros Ha Hb Hb0 Hr HB. apply rounds_err; [|assumption].
  apply div_rounds; try assumption.
  apply big_lt_bpow_1000, Rabs_le. lra.
Qed.

(** ** The variance of three 16-bit values *)

Lemma small_product (d t : R) :
  - / 17179869184 <= d <= / 17179869184 ->
  - 262144 <= t <= 262144 ->
  - / 65536 <= d * t <= / 65536.
Proof.
  intros Hd Ht.
  assert (H : Rabs (d * t) <= / 17179869184 * 262144).
  { rewrite Rabs_mult. apply Rmult_le_compat; try apply Rabs_pos; apply Rabs_le; lra. }
  apply Rabs_le_bounds in H. lra.
Qed.

(** One squared deviation: the float [(fx - mean)^2] against the real
    [(X - mu)^2], when [mean] approximates [mu]. *)
Lemma squared_deviation (fx mean : float) (X mu : R) :
  is_finite fx = true -> is_finite mean = true ->
  F2R fx = X -> - 32768 <= X <= 32768 -> - 32768 <= mu <= 32768 ->
  - / 137438953472 <= F2R mean - mu <= / 137438953472 ->
  let d := (fx - mean)%float in
  is_finite (d * d) = true
  /\ - / 32768 <= F2R (d * d) - (X - mu) * (X - mu) <= / 32768
  /\ 0 <= (X - mu) * (X - mu) <= 4294967296.
Proof.
  intros Hfx Hfm HX HXr Hmu Hmean d.
  destruct (sub_err fx mean 131072 Hfx Hfm ltac:(lra) ltac:(lra)) as [Hfd Hd].
  fold d in Hfd, Hd. unfold err in Hd.
  set (a := X - mu) in *.
  assert (Hda : - / 17179869184 <= F2R d - a <= / 17179869184) by (unfold a; lra).
  assert (Ha : - 65536 <= a <= 65536) by (unfold a; lra).
  assert (Hsq : - / 65536 <= F2R d * F2R d - a * a <= / 65536).
  { replace (F2R d * F2R d - a * a) with ((F2R d - a) * (F2R d + a)) by ring.
    apply small_product; lra. }
  assert (Haa : 0 <= a * a <= 4294967296) by nra.
  destruct (mul_err d d 17179869184 Hfd Hfd ltac:(lra) ltac:(lra)) as [Hfq Hq].
  unfold err in Hq.
  split; [exact Hfq|]. split; [lra|exact Haa].
Qed.

Lemma np_var_floats_3 (x y z : Z) :
  np_var_floats [x; y; z]
  = (let fx := float_of_Z x in
     let fy := float_of_Z y in
     let fz := float_of_Z z in
     let n := float_of_Z 3 in
     let mean := (0 + fx + fy + fz) / n in
     (0 + (fx - mean) * (fx - mean) + (fy - mean) * (fy - mean)
      + (fz - mean) * (fz - mean)) / n)%float.
Proof. reflexivity. Qed.

Lemma float_of_Z_int16 (v : Z) :
  in_int16 v -> is_finite (float_of_Z v) = true /\ F2R (float_of_Z v) = IZR v.
Proof. intros [H1 H2]. apply float_of_Z_exact. lia. Qed.

Lemma float_of_Z_3 : is_finite (float_of_Z 3) = true /\ F2R (float_of_Z 3) = 3.
Proof. apply float_of_Z_exact. lia. Qed.

Lemma sum_exact (x y z : Z) :
  in_int16 x -> in_int16 y -> in_int16 z ->
  is_finite (0 + float_of_Z x + float_of_Z y + float_of_Z z)%float = true
  /\ F2R (0 + float_of_Z x + float_of_Z y + float_of_Z z)%float = IZR (x + y + z).
Proof.
  intros Hx Hy Hz.
  destruct (float_of_Z_int16 x Hx) as [Fx Vx].
  destruct (float_of_Z_int16 y Hy) as [Fy Vy].
  destruct (float_of_Z_int16 z Hz) as [Fz Vz].
  destruct F2R_zero as [F0 V0].
  unfold in_int16 in *.
  destruct (add_int 0 (float_of_Z x) 0 x F0 Fx V0 Vx ltac:(lia)) as [F1 V1].
  destruct (add_int _ (float_of_Z y) _ y F1 Fy V1 Vy ltac:(lia)) as [F2 V2].
  destruct (add_int _ (float_of_Z z) _ z F2 Fz V2 Vz ltac:(lia)) as [F3 V3].
  split; [exact F3|]. rewrite V3. f_equal.
Qed.

Lemma IZR_int16 (v : Z) : in_int16 v -> - 32768 <= IZR v <= 32768.
Proof.
  intros [H1 H2]. apply IZR_le in H1, H2. lra.
Qed.

(** The computed variance is within 2^-11 of the exact one. *)
Lemma np_var_floats_error (x y z : Z) :
  in_int16 x -> in_int16 y -> in_int16 z ->
  is_finite (np_var_floats [x; y; z]) = true
  /\ - / 2048 <= F2R (np_var_floats [x; y; z]) - IZR (variance_times_9 x y z) / 9
     <= / 2048.
Proof.
  intros Hx Hy Hz. rewrite np_var_floats_3. cbv zeta.
  destruct (float_of_Z_int16 x Hx) as [Fx Vx].
  destruct (float_of_Z_int16 y Hy) as [Fy Vy].
  destruct (float_of_Z_int16 z Hz) as [Fz Vz].
  destruct float_of_Z_3 as [Fn Vn].
  destruct F2R_zero as [F0 V0].
  destruct (sum_exact x y z Hx Hy Hz) as [Fs Vs].
  pose proof (IZR_int16 x Hx) as Rx.
  pose proof (IZR_int16 y Hy) as Ry.
  pose proof (IZR_int16 z Hz) as Rz.
  set (X := IZR x) in *. set (Y := IZR y) in *. set (Zr := IZR z) in *.
  set (mu := (X + Y + Zr) / 3).
  assert (Hmu : - 32768 <= mu <= 32768) by (unfold mu; lra).
  set (s := (0 + float_of_Z x + float_of_Z y + float_of_Z z)%float) in *.
  set (n := float_of_Z 3) in *.
  assert (Hsn : F2R s / F2R n = mu).
  { rewrite Vs, Vn, !plus_IZR. reflexivity. }
  destruct (div_err s n 32768 Fs Fn ltac:(lra) ltac:(lra) ltac:(lra)) as [Fm Em].
  rewrite Hsn in Em. unfold err in Em.
  set (mean := (s / n)%float) in *.
  assert (Hmean : - / 137438953472 <= F2R mean - mu <= / 137438953472) by lra.
  destruct (squared_deviation (float_of_Z x) mean X mu Fx Fm Vx Rx Hmu Hmean)
    as (Fqx & Eqx & Bx).
  destruct (squared_deviation (float_of_Z y) mean Y mu Fy Fm Vy Ry Hmu Hmean)
    as (Fqy & Eqy & By).
  destruct (squared_deviation (float_of_Z z) mean Zr mu Fz Fm Vz Rz Hmu Hmean)
    as (Fqz & Eqz & Bz).
  cbv zeta in Fqx, Eqx, Fqy, Eqy, Fqz, Eqz.
  set (qx := ((float_of_Z x - mean) * (float_of_Z x - mean))%float) in *.
  set (qy := ((float_of_Z y - mean) * (float_of_Z y - mean))%float) in *.
  set (qz := ((float_of_Z z - mean) * (float_of_Z z - mean))%float) in *.
  set (ax := (X - mu) * (X - mu)) in *.
  set (ay := (Y - mu) * (Y - mu)) in *.
  set (az := (Zr - mu) * (Zr - mu)) in *.
  destruct (add_err 0 qx 8589934592 F0 Fqx ltac:(lra) ltac:(lra)) as [F1 E1].
  unfold err in E1. rewrite V0 in E1.
  destruct (add_err _ qy 17179869184 F1 Fqy ltac:(lra) ltac:(lra)) as [F2 E2].
  unfold err in E2.
  destruct (add_err _ qz 34359738368 F2 Fqz ltac:(lra) ltac:(lra)) as [F3 E3].
  unfold err in E3.
  set (t := (0 + qx + qy + qz)%float) in *.
  destruct (div_err t n 34359738368 F3 Fn ltac:(lra) ltac:(rewrite Vn; lra) ltac:(lra))
    as [Fv Ev].
  unfold err in Ev. rewrite Vn in Ev.
  split; [exact Fv|].
  assert (Hid : IZR (variance_times_9 x y z) / 9 = (ax + ay + az) / 3).
  { unfold variance_times_9.
    rewrite minus_IZR, !mult_IZR, !plus_IZR, !mult_IZR.
    fold X Y Zr. unfold ax, ay, az, mu. field. }
  rewrite Hid. lra.
Qed.

(** When the three values sum to a multiple of 3, nothing is rounded
    before the last division. *)
Lemma np_var_floats_exact (x y z k Q : Z) :
  in_int16 x -> in_int16 y -> in_int16 z ->
  (x + y + z = 3 * k)%Z ->
  ((x - k) * (x - k) + (y - k) * (y - k) + (z - k) * (z - k) = 3 * Q)%Z ->
  is_finite (np_var_floats [x; y; z]) = true
  /\ F2R (np_var_floats [x; y; z]) = IZR Q.
Proof.
  intros Hx Hy Hz Hk HQ. rewrite np_var_floats_3. cbv zeta.
  destruct (float_of_Z_int16 x Hx) as [Fx Vx].
  destruct (float_of_Z_int16 y Hy) as [Fy Vy].
  destruct (float_of_Z_int16 z Hz) as [Fz Vz].
  destruct float_of_Z_3 as [Fn Vn].
  destruct F2R_zero as [F0 V0].
  destruct (sum_exact x y z Hx Hy Hz) as [Fs Vs].
  rewrite Hk in Vs. unfold in_int16 in *.
  set (s := (0 + float_of_Z x + float_of_Z y + float_of_Z z)%float) in *.
  set (n := float_of_Z 3) in *.
  destruct (div_int s n 3 k Fs Fn Vs Vn ltac:(lia) ltac:(lia)) as [Fm Vm].
  set (mean := (s / n)%float) in *.
  destruct (sub_int (float_of_Z x) mean x k Fx Fm Vx Vm ltac:(lia)) as [Fdx Vdx].
  destruct (sub_int (float_of_Z y) mean y k Fy Fm Vy Vm ltac:(lia)) as [Fdy Vdy].
  destruct (sub_int (float_of_Z z) mean z k Fz Fm Vz Vm ltac:(lia)) as [Fdz Vdz].
  destruct (mul_int _ _ _ _ Fdx Fdx Vdx Vdx ltac:(nia)) as [Fqx Vqx].
  destruct (mul_int _ _ _ _ Fdy Fdy Vdy Vdy ltac:(nia)) as [Fqy Vqy].
  destruct (mul_int _ _ _ _ Fdz Fdz Vdz Vdz ltac:(nia)) as [Fqz Vqz].
  destruct (add_int _ _ 0 _ F0 Fqx V0 Vqx ltac:(nia)) as [F1 V1].
  destruct (add_int _ _ _ _ F1 Fqy V1 Vqy ltac:(nia)) as [F2 V2].
  destruct (add_int _ _ _ _ F2 Fqz V2 Vqz ltac:(nia)) as [F3 V3].
  replace (0 + (x - k) * (x - k) + (y - k) * (y - k) + (z - k) * (z - k))%Z
    with (3 * Q)%Z in V3 by lia.
  apply (div_int _ n 3 Q F3 Fn V3 Vn); nia.
Qed.

(** A square divisible by 3 is the square of a multiple of 3. *)
Lemma square_multiple_of_3 (s A : Z) : (s * s = 3 * A)%Z -> exists k, (s = 3 * k)%Z.
Proof.
  intros H. pose proof (Z.div_mod s 3 ltac:(lia)) as Hdm.
  pose proof (Z.mod_pos_bound s 3 ltac:(lia)) as Hr.
  set (q := (s / 3)%Z) in *. set (r := (s mod 3)%Z) in *.
  assert (Hsq : (s * s = 3 * (3 * (q * q) + 2 * (q * r)) + r * r)%Z).
  { rewrite Hdm. ring. }
  assert (Hcases : r = 0%Z \/ r = 1%Z \/ r = 2%Z) by lia.
  destruct Hcases as [Hr0|[Hr1|Hr2]].
  - exists q. lia.
  - rewrite Hr1 in Hsq. lia.
  - rewrite Hr2 in Hsq. lia.
Qed.

(** The comparison made by the classifier, on 16-bit values, is the
    comparison of the exact variance with 50. *)
Theorem np_var_floats_threshold (x y z : Z) :
  in_int16 x -> in_int16 y -> in_int16 z ->
  (float_of_Z 50 <? np_var_floats [x; y; z])%float
  = (450 <? variance_times_9 x y z)%Z.
Proof.
  intros Hx Hy Hz.
  destruct (float_of_Z_exact 50 ltac:(lia)) as [F50 V50].
  destruct (np_var_floats_error x y z Hx Hy Hz) as [Fv Ev].
  pose proof (ltb_F2R (float_of_Z 50) (np_var_floats [x; y; z]) F50 Fv) as Hlt.
  rewrite V50 in Hlt.
  destruct (Z.ltb_spec 450 (variance_times_9 x y z)) as [Hgt|Hle].
  - apply Hlt.
    assert (H : (451 <= variance_times_9 x y z)%Z) by lia.
    apply IZR_le in H. lra.
  - destruct (Rlt_dec 50 (F2R (np_var_floats [x; y; z]))) as [Hc|Hc].
    + exfalso.
      destruct (Z.eq_dec (variance_times_9 x y z) 450) as [Heq|Hne].
      * unfold variance_times_9 in Heq.
        destruct (square_multiple_of_3 (x + y + z) (x * x + y * y + z * z - 150)
                    ltac:(lia)) as [k Hk].
        assert (HQ : ((x - k) * (x - k) + (y - k) * (y - k) + (z - k) * (z - k)
                      = 3 * 50)%Z) by nia.
        destruct (np_var_floats_exact x y z k 50 Hx Hy Hz Hk HQ) as [_ Hv].
        rewrite Hv in Hc. lra.
      * assert (H : (variance_times_9 x y z <= 449)%Z) by lia.
        apply IZR_le in H. lra.
    + destruct ((float_of_Z 50 <? np_var_floats [x; y; z])%float); [|reflexivity].
      exfalso. apply Hc, Hlt. reflexivity.
Qed.

End Variance.

(** ** The exact variance as a rational number *)

Lemma population_variance_times_9 (x y z : Z) :
  (population_variance x y z == inject_Z (variance_times_9 x y z) / 9)%Q.
Proof.
  unfold population_variance, variance_times_9, Z.sub.
  rewrite inject_Z_plus, inject_Z_opp, !inject_Z_mult, !inject_Z_plus, !inject_Z_mult.
  change (inject_Z 3) with 3%Q. field.
Qed.

Lemma population_variance_gt_50 (x y z : Z) :
  (50 < population_variance x y z)%Q <-> (450 < variance_times_9 x y z)%Z.
Proof.
  rewrite population_variance_times_9.
  generalize (variance_times_9 x y z). intros n.
  unfold Qlt, Qdiv, Qmult, Qinv, inject_Z. cbn. lia.
Qed.

Lemma population_variance_le_50 (x y z : Z) :
  (population_variance x y z <= 50)%Q <-> (variance_times_9 x y z <= 450)%Z.
Proof.
  rewrite population_variance_times_9.
  generalize (variance_times_9 x y z). intros n.
  unfold Qle, Qdiv, Qmult, Qinv, inject_Z. cbn. lia.
Qed.

Lemma Q2R_population_variance (x y z : Z) :
  Q2R (population_variance x y z) = (IZR (variance_times_9 x y z) / 9)%R.
Proof.
  rewrite (Qeq_eqR _ _ (population_variance_times_9 x y z)).
  unfold Qdiv. rewrite Q2R_mult, Q2R_inv by discriminate.
  unfold Q2R. cbn [Qnum Qden inject_Z]. field.
Qed.

(* ================================================================= *)
(** * The motion classifier: variance against the threshold *)

(** C2.  On a sample of three 16-bit integers the classifier computes
    the population variance (the mean of the squared deviations from
    the mean (x+y+z)/3, dividing by 3) in binary64, within 2^-11 of its
    exact value, and answers "Moving" exactly when the exact variance
    is strictly greater than 50, "Stationary" otherwise; a variance of
    exactly 50 gives "Stationary".  The rounding of [np.var] never
    changes the verdict. *)
Theorem detect_motion_variance_threshold (x y z : Z) :
  in_int16 x -> in_int16 y -> in_int16 z ->
  np_var [PyInt x; PyInt y; PyInt z] = Ret (np_var_floats [x; y; z])
  /\ is_finite (np_var_floats [x; y; z]) = true
  /\ (Rabs (F2R (np_var_floats [x; y; z]) - Q2R (population_variance x y z))
      <= / 2048)%R
  /\ (detect_motion (accel_dict x y z) = Ret "Moving"
      <-> (50 < population_variance x y z)%Q)
  /\ (detect_motion (accel_dict x y z) = Ret "Stationary"
      <-> (population_variance x y z <= 50)%Q)
  /\ ((population_variance x y z == 50)%Q ->
      detect_motion (accel_dict x y z) = Ret "Stationary").
Proof.
  intros Hx Hy Hz.
  split; [reflexivity|].
  destruct (np_var_floats_error x y z Hx Hy Hz) as [Hfin Herr].
  split; [exact Hfin|].
  split; [rewrite Q2R_population_variance; apply Rabs_le; exact Herr|].
  rewrite detect_motion_accel_dict.
  change (float_of_Z MOTION_THRESHOLD) with (float_of_Z 50).
  rewrite (np_var_floats_threshold x y z Hx Hy Hz).
  rewrite population_variance_gt_50, population_variance_le_50.
  assert (Heq : (population_variance x y z == 50)%Q ->
                (variance_times_9 x y z <= 450)%Z).
  { intros H. apply population_variance_le_50. rewrite H. apply Qle_refl. }
  destruct (Z.ltb_spec 450 (variance_times_9 x y z)) as [Hgt|Hle].
  - split; [tauto|]. split; [|intros H; apply Heq in H; lia].
    split; [discriminate | lia].
  - split; [split; [discriminate | lia]|]. tauto.
Qed.

Lemma detect_motion_variance_threshold_witness :
  detect_motion (accel_dict 0 0 0) = Ret "Stationary"
  /\ detect_motion (accel_dict 10 (-10) 0) = Ret "Moving"
  /\ detect_motion (accel_dict 5 5 6) = Ret "Stationary"
  /\ detect_motion (accel_dict 15 0 0) = Ret "Stationary".
Proof.
  assert (H0 : in_int16 0) by (unfold in_int16; lia).
  assert (H5 : in_int16 5) by (unfold in_int16; lia).
  assert (H6 : in_int16 6) by (unfold in_int16; lia).
  assert (H10 : in_int16 10) by (unfold in_int16; lia).
  assert (Hm10 : in_int16 (-10)) by (unfold in_int16; lia).
  assert (H15 : in_int16 15) by (unfold in_int16; lia).
  split; [|split; [|split]].
  - apply (proj1 (proj2 (proj2 (proj2 (proj2 (detect_motion_variance_threshold 0 0 0 H0 H0 H0)))))).
    vm_compute. discriminate.
  - apply (proj1 (proj2 (proj2 (proj2 (detect_motion_variance_threshold 10 (-10) 0 H10 Hm10 H0))))).
    vm_compute. reflexivity.
  - apply (proj1 (proj2 (proj2 (proj2 (proj2 (detect_motion_variance_threshold 5 5 6 H5 H5 H6)))))).
    vm_compute. discriminate.
  - apply (proj2 (proj2 (proj2 (proj2 (proj2 (detect_motion_variance_threshold 15 0 0 H15 H0 H0)))))).
    vm_compute. reflexivity.
Defined.

(* ================================================================= *)
(** * Further properties of the decoders, the classifier and the scan *)

(* ================================================================= *)
(** * The decoders: which bytes matter *)

Lemma byte_val_inj (a b : Byte.byte) : byte_val a = byte_val b -> a = b.
Proof.
  unfold byte_val. intros H. apply N2Z.inj in H.
  apply (f_equal Byte.of_N) in H. rewrite !Byte.of_to_N in H.
  now injection H.
Qed.

Lemma u16_be_inj (p q : bytes) (i j : nat) :
  u16_be p i = u16_be q j ->
  nth i p Byte.x00 = nth j q Byte.x00
  /\ nth (i + 1) p Byte.x00 = nth (j + 1) q Byte.x00.
Proof.
  unfold u16_be. intros H.
  pose proof (byte_val_range (nth i p Byte.x00)).
  pose proof (byte_val_range (nth (i + 1) p Byte.x00)).
  pose proof (byte_val_range (nth j q Byte.x00)).
  pose proof (byte_val_range (nth (j + 1) q Byte.x00)).
  split; apply byte_val_inj; lia.
Qed.

Lemma s16_be_inj (p q : bytes) (i j : nat) :
  s16_be p i = s16_be q j -> u16_be p i = u16_be q j.
Proof.
  unfold s16_be. intros H.
  pose proof (u16_be_range p i). pose proof (u16_be_range q j).
  destruct (Z.leb_spec 32768 (u16_be p i));
    destruct (Z.leb_spec 32768 (u16_be q j)); lia.
Qed.

(** Two slices inside their packets are equal exactly when the packets
    agree on the positions sliced. *)
Lemma bytes_slice_eq_iff (p q : bytes) (i j : nat) :
  j <= List.length p -> j <= List.length q ->
  (bytes_slice p i j = bytes_slice q i j
   <-> forall k, i <= k < j -> nth k p Byte.x00 = nth k q Byte.x00).
Proof.
  intros Hp Hq. split.
  - intros H k Hk.
    replace k with (i + (k - i)) by lia.
    rewrite <- (bytes_slice_nth p i j), <- (bytes_slice_nth q i j) by lia.
    now rewrite H.
  - intros H. apply (nth_ext _ _ Byte.x00 Byte.x00).
    + now rewrite !bytes_slice_length.
    + intros n Hn. rewrite bytes_slice_length in Hn by assumption.
      rewrite !bytes_slice_nth by assumption. apply H. lia.
Qed.

Lemma decode_accelerometer_long (p : bytes) :
  19 <= List.length p ->
  decode_accelerometer p
  = Some {| sample_x := s16_be p 13; sample_y := s16_be p 15; sample_z := s16_be p 17 |}.
Proof.
  intros H. unfold decode_accelerometer, ACCEL_MIN_LENGTH.
  destruct (Nat.ltb_spec (List.length p) 19); [lia|]. reflexivity.
Qed.

Lemma decode_ibeacon_long (p : bytes) :
  28 <= List.length p ->
  decode_ibeacon p
  = Some {| identifier := bytes_slice p 8 24; major := u16_be p 24; minor := u16_be p 26 |}.
Proof.
  intros H. unfold decode_ibeacon, IBEACON_MIN_LENGTH.
  destruct (Nat.ltb_spec (List.length p) 28); [lia|]. reflexivity.
Qed.

(** X1.  Two packets of at least 19 bytes decode to the same sample
    exactly when they agree on bytes 13..18: no other byte is looked at,
    and the sample determines those six bytes. *)
Theorem parse_accelerometer_data_window (p q : bytes) :
  19 <= List.length p -> 19 <= List.length q ->
  (parse_accelerometer_data p = parse_accelerometer_data q
   <-> bytes_slice p 13 19 = bytes_slice q 13 19).
Proof.
  intros Hp Hq.
  rewrite !parse_accelerometer_data_decode, !decode_accelerometer_long by assumption.
  rewrite bytes_slice_eq_iff by assumption.
  cbn [py_of_sample sample_x sample_y sample_z]. split.
  - intros H. injection H as Hx Hy Hz.
    apply s16_be_inj, u16_be_inj in Hx, Hy, Hz.
    cbn [Nat.add] in Hx, Hy, Hz.
    intros k Hk.
    assert (Hc : k = 13 \/ k = 14 \/ k = 15 \/ k = 16 \/ k = 17 \/ k = 18) by lia.
    destruct Hc as [->|[->|[->|[->|[->| ->]]]]]; tauto.
  - intros H. unfold s16_be, u16_be. cbn [Nat.add].
    rewrite !(H 13), !(H 14), !(H 15), !(H 16), !(H 17), !(H 18) by lia.
    reflexivity.
Qed.

Lemma parse_accelerometer_data_window_witness :
  parse_accelerometer_data (packet_19 ++ packet_28)%list
  = parse_accelerometer_data packet_19.
Proof.
  apply (parse_accelerometer_data_window (packet_19 ++ packet_28)%list packet_19);
    [simpl; lia | simpl; lia | reflexivity].
Defined.

(** X2.  Two packets of at least 28 bytes decode to the same iBeacon
    record exactly when they agree on bytes 8..27. *)
Theorem parse_ibeacon_data_window (p q : bytes) :
  28 <= List.length p -> 28 <= List.length q ->
  (parse_ibeacon_data p = parse_ibeacon_data q
   <-> bytes_slice p 8 28 = bytes_slice q 8 28).
Proof.
  intros Hp Hq.
  rewrite !parse_ibeacon_data_decode, !decode_ibeacon_long by assumption.
  rewrite bytes_slice_eq_iff by assumption.
  cbn [py_of_ibeacon identifier major minor]. split.
  - intros H. injection H as Hid Hmaj Hmin.
    apply bytes_hex_inj in Hid.
    rewrite bytes_slice_eq_iff in Hid by lia.
    apply u16_be_inj in Hmaj, Hmin. cbn [Nat.add] in Hmaj, Hmin.
    intros k Hk.
    destruct (Nat.lt_ge_cases k 24) as [Hlt|Hge]; [apply Hid; lia|].
    assert (Hc : k = 24 \/ k = 25 \/ k = 26 \/ k = 27) by lia.
    destruct Hc as [->|[->|[->| ->]]]; tauto.
  - intros H.
    assert (Hid : bytes_slice p 8 24 = bytes_slice q 8 24).
    { apply bytes_slice_eq_iff; [lia|lia|]. intros k Hk. apply H. lia. }
    rewrite Hid. unfold u16_be. cbn [Nat.add].
    rewrite !(H 24), !(H 25), !(H 26), !(H 27) by lia.
    reflexivity.
Qed.

Lemma parse_ibeacon_data_window_witness :
  parse_ibeacon_data (repeat Byte.x00 8 ++ skipn 8 packet_28 ++ [Byte.x07])%list
  = parse_ibeacon_data packet_28.
Proof.
  apply (parse_ibeacon_data_window
           (repeat Byte.x00 8 ++ skipn 8 packet_28 ++ [Byte.x07])%list packet_28);
    [simpl; lia | simpl; lia | reflexivity].
Defined.

Lemma byte_val_byte_of_Z (v : Z) : byte_val (byte_of_Z v) = (v mod 256)%Z.
Proof.
  unfold byte_of_Z, byte_val.
  pose proof (Z.mod_pos_bound v 256 ltac:(lia)) as Hb.
  destruct (Byte.of_N (Z.to_N (v mod 256))) as [b|] eqn:E.
  - apply Byte.to_of_N in E. rewrite E. lia.
  - apply Byte.of_N_None_iff in E. lia.
Qed.

Lemma s16_be_in_int16 (p : bytes) (i : nat) : in_int16 (s16_be p i).
Proof.
  unfold in_int16, s16_be. pose proof (u16_be_range p i).
  destruct (Z.leb_spec 32768 (u16_be p i)); lia.
Qed.

(** X3.  Every triple of 16-bit values is the sample of some 19-byte
    packet: the decoder reaches the whole range the classifier is
    proved on. *)
Theorem parse_accelerometer_data_onto (x y z : Z) :
  in_int16 x -> in_int16 y -> in_int16 z ->
  exists packet,
    List.length packet = 19
    /\ parse_accelerometer_data packet = Ret (accel_dict x y z).
Proof.
  intros Hx Hy Hz. unfold in_int16 in *.
  set (field v := [byte_of_Z ((v mod 65536) / 256); byte_of_Z (v mod 65536)]).
  exists (repeat Byte.x00 13 ++ field x ++ field y ++ field z)%list.
  split; [reflexivity|].
  rewrite parse_accelerometer_data_decode, decode_accelerometer_long by (simpl; lia).
  assert (Hfield : forall v hi lo,
             (-32768 <= v <= 32767)%Z ->
             byte_val hi = (((v mod 65536) / 256) mod 256)%Z ->
             byte_val lo = ((v mod 65536) mod 256)%Z ->
             (if (32768 <=? 256 * byte_val hi + byte_val lo)%Z
              then (256 * byte_val hi + byte_val lo - 65536)%Z
              else (256 * byte_val hi + byte_val lo)%Z) = v).
  { intros v hi lo Hv Hhi Hlo. rewrite Hhi, Hlo.
    pose proof (Z.mod_pos_bound v 65536 ltac:(lia)) as Hm.
    assert (Hv' : (v mod 65536 = v \/ v mod 65536 = v + 65536)%Z).
    { destruct (Z.lt_ge_cases v 0).
      - right. symmetry. apply (Z.mod_unique v 65536 (-1)); lia.
      - left. apply Z.mod_small. lia. }
    set (u := (v mod 65536)%Z) in *.
    rewrite (Z.mod_small (u / 256) 256)
      by (split; [apply Z.div_pos; lia | apply Z.div_lt_upper_bound; lia]).
    pose proof (Z.div_mod u 256 ltac:(lia)) as Hdm.
    replace (256 * (u / 256) + u mod 256)%Z with u by lia.
    destruct (Z.leb_spec 32768 u); lia. }
  cbn [py_of_sample sample_x sample_y sample_z]. unfold accel_dict.
  unfold s16_be, u16_be. cbn [Nat.add repeat app nth field]. cbv zeta.
  rewrite (Hfield x _ _ Hx (byte_val_byte_of_Z _) (byte_val_byte_of_Z _)).
  rewrite (Hfield y _ _ Hy (byte_val_byte_of_Z _) (byte_val_byte_of_Z _)).
  rewrite (Hfield z _ _ Hz (byte_val_byte_of_Z _) (byte_val_byte_of_Z _)).
  reflexivity.
Qed.

Lemma parse_accelerometer_data_onto_witness :
  exists packet,
    List.length packet = 19
    /\ parse_accelerometer_data packet = Ret (accel_dict (-32768) 32767 (-1)).
Proof.
  apply (parse_accelerometer_data_onto (-32768) 32767 (-1));
    unfold in_int16; lia.
Defined.

(* ================================================================= *)
(** * The classifier on 16-bit samples *)

Lemma variance_times_9_pairwise (x y z : Z) :
  variance_times_9 x y z = pairwise_squares x y z.
Proof. unfold variance_times_9, pairwise_squares. ring. Qed.

Lemma detect_motion_int16 (x y z : Z) :
  in_int16 x -> in_int16 y -> in_int16 z ->
  detect_motion (accel_dict x y z)
  = Ret (if (450 <? pairwise_squares x y z)%Z then "Moving" else "Stationary").
Proof.
  intros Hx Hy Hz. rewrite detect_motion_accel_dict.
  change (float_of_Z MOTION_THRESHOLD) with (float_of_Z 50).
  rewrite (np_var_floats_threshold x y z Hx Hy Hz).
  now rewrite variance_times_9_pairwise.
Qed.

(** X4.  On a 16-bit sample the label depends on the differences
    between the axes only: it is "Moving" exactly when the squared
    differences of the three pairs sum to more than 450. *)
Theorem detect_motion_pairwise (x y z : Z) :
  in_int16 x -> in_int16 y -> in_int16 z ->
  (detect_motion (accel_dict x y z) = Ret "Moving"
   <-> (450 < (x - y) * (x - y) + (y - z) * (y - z) + (z - x) * (z - x))%Z)
  /\ (detect_motion (accel_dict x y z) = Ret "Stationary"
      <-> ((x - y) * (x - y) + (y - z) * (y - z) + (z - x) * (z - x) <= 450)%Z).
Proof.
  intros Hx Hy Hz. rewrite (detect_motion_int16 x y z Hx Hy Hz).
  fold (pairwise_squares x y z).
  destruct (Z.ltb_spec 450 (pairwise_squares x y z)); split; split;
    intros; try lia; try discriminate; reflexivity.
Qed.

Lemma detect_motion_pairwise_witness :
  detect_motion (accel_dict 1000 1000 1016) = Ret "Moving"
  /\ detect_motion (accel_dict 1000 1000 1015) = Ret "Stationary".
Proof.
  split.
  - apply (proj1 (detect_motion_pairwise 1000 1000 1016
                    ltac:(unfold in_int16; lia) ltac:(unfold in_int16; lia)
                    ltac:(unfold in_int16; lia))). lia.
  - apply (proj2 (detect_motion_pairwise 1000 1000 1015
                    ltac:(unfold in_int16; lia) ltac:(unfold in_int16; lia)
                    ltac:(unfold in_int16; lia))). lia.
Defined.

(** X5.  The label does not depend on which axis is which. *)
Theorem detect_motion_permutation (x y z : Z) :
  in_int16 x -> in_int16 y -> in_int16 z ->
  detect_motion (accel_dict y x z) = detect_motion (accel_dict x y z)
  /\ detect_motion (accel_dict y z x) = detect_motion (accel_dict x y z)
  /\ detect_motion (accel_dict z y x) = detect_motion (accel_dict x y z).
Proof.
  intros Hx Hy Hz. rewrite !detect_motion_int16 by assumption.
  replace (pairwise_squares y x z) with (pairwise_squares x y z)
    by (unfold pairwise_squares; ring).
  replace (pairwise_squares y z x) with (pairwise_squares x y z)
    by (unfold pairwise_squares; ring).
  replace (pairwise_squares z y x) with (pairwise_squares x y z)
    by (unfold pairwise_squares; ring).
  repeat split.
Qed.

Lemma detect_motion_permutation_witness :
  detect_motion (accel_dict 6 5 5) = detect_motion (accel_dict 5 6 5).
Proof.
  apply (detect_motion_permutation 5 6 5); unfold in_int16; lia.
Defined.

(** X6.  Shifting the three axes by the same amount does not change
    the label, as long as the values stay in range. *)
Theorem detect_motion_shift (x y z c : Z) :
  in_int16 x -> in_int16 y -> in_int16 z ->
  in_int16 (x + c) -> in_int16 (y + c) -> in_int16 (z + c) ->
  detect_motion (accel_dict (x + c) (y + c) (z + c)) = detect_motion (accel_dict x y z).
Proof.
  intros Hx Hy Hz Hxc Hyc Hzc.
  rewrite !detect_motion_int16 by assumption.
  replace (pairwise_squares (x + c) (y + c) (z + c)) with (pairwise_squares x y z)
    by (unfold pairwise_squares; ring).
  reflexivity.
Qed.

Lemma detect_motion_shift_witness :
  detect_motion (accel_dict 1010 990 1000) = detect_motion (accel_dict 10 (-10) 0).
Proof.
  apply (detect_motion_shift 10 (-10) 0 1000); unfold in_int16; lia.
Defined.

(** X7.  Negating the three axes does not change the label either. *)
Theorem detect_motion_negate (x y z : Z) :
  in_int16 x -> in_int16 y -> in_int16 z ->
  in_int16 (- x) -> in_int16 (- y) -> in_int16 (- z) ->
  detect_motion (accel_dict (- x) (- y) (- z)) = detect_motion (accel_dict x y z).
Proof.
  intros Hx Hy Hz Hnx Hny Hnz.
  rewrite !detect_motion_int16 by assumption.
  replace (pairwise_squares (- x) (- y) (- z)) with (pairwise_squares x y z)
    by (unfold pairwise_squares; ring).
  reflexivity.
Qed.

Lemma detect_motion_negate_witness :
  detect_motion (accel_dict (-10) 10 0) = detect_motion (accel_dict 10 (-10) 0).
Proof.
  apply (detect_motion_negate 10 (-10) 0); unfold in_int16; lia.
Defined.

Lemma sorted_pairwise_bounds (a b : Z) :
  (0 <= a)%Z -> (0 <= b)%Z ->
  (a * a + b * b + (a + b) * (a + b) <= 2 * ((a + b) * (a + b))
   /\ 3 * ((a + b) * (a + b)) <= 2 * (a * a + b * b + (a + b) * (a + b)))%Z.
Proof.
  intros Ha Hb. pose proof (Z.mul_nonneg_nonneg a b Ha Hb).
  pose proof (Z.square_nonneg (a - b)). nia.
Qed.

(** The sum of the squared differences lies between 3/2 and 2 times
    the square of the spread. *)
Lemma pairwise_squares_spread (x y z : Z) :
  (pairwise_squares x y z <= 2 * (spread x y z * spread x y z)
   /\ 3 * (spread x y z * spread x y z) <= 2 * pairwise_squares x y z)%Z.
Proof.
  unfold spread, pairwise_squares.
  destruct (Z.le_ge_cases x y); destruct (Z.le_ge_cases y z);
    destruct (Z.le_ge_cases x z);
    try (assert (x = y /\ y = z) as [-> ->] by lia;
         rewrite !Z.max_id, !Z.min_id, !Z.sub_diag; cbn; lia).
  - (* x <= y <= z *)
    rewrite (Z.max_r y z), (Z.max_r x z), (Z.min_l y z), (Z.min_l x y) by lia.
    pose proof (sorted_pairwise_bounds (y - x) (z - y) ltac:(lia) ltac:(lia)).
    replace (y - x + (z - y))%Z with (z - x)%Z in * by lia. nia.
  - (* x <= z <= y *)
    rewrite (Z.max_l y z), (Z.max_r x y), (Z.min_r y z), (Z.min_l x z) by lia.
    pose proof (sorted_pairwise_bounds (z - x) (y - z) ltac:(lia) ltac:(lia)).
    replace (z - x + (y - z))%Z with (y - x)%Z in * by lia. nia.
  - (* z <= x <= y *)
    rewrite (Z.max_l y z), (Z.max_r x y), (Z.min_r y z), (Z.min_r x z) by lia.
    pose proof (sorted_pairwise_bounds (x - z) (y - x) ltac:(lia) ltac:(lia)).
    replace (x - z + (y - x))%Z with (y - z)%Z in * by lia. nia.
  - (* y <= x <= z *)
    rewrite (Z.max_r y z), (Z.max_r x z), (Z.min_l y z), (Z.min_r x y) by lia.
    pose proof (sorted_pairwise_bounds (x - y) (z - x) ltac:(lia) ltac:(lia)).
    replace (x - y + (z - x))%Z with (z - y)%Z in * by lia. nia.
  - (* y <= z <= x *)
    rewrite (Z.max_r y z), (Z.max_l x z), (Z.min_l y z), (Z.min_r x y) by lia.
    pose proof (sorted_pairwise_bounds (z - y) (x - z) ltac:(lia) ltac:(lia)).
    replace (z - y + (x - z))%Z with (x - y)%Z in * by lia. nia.
  - (* z <= y <= x *)
    rewrite (Z.max_l y z), (Z.max_l x y), (Z.min_r y z), (Z.min_r x z) by lia.
    pose proof (sorted_pairwise_bounds (y - z) (x - y) ltac:(lia) ltac:(lia)).
    replace (y - z + (x - y))%Z with (x - z)%Z in * by lia. nia.
Qed.

(** X8.  What the spread of the axes decides: at most 15 between the
    largest and the smallest axis is always "Stationary", at least 18 is
    always "Moving". *)
Theorem detect_motion_spread (x y z : Z) :
  in_int16 x -> in_int16 y -> in_int16 z ->
  ((spread x y z <= 15)%Z -> detect_motion (accel_dict x y z) = Ret "Stationary")
  /\ ((18 <= spread x y z)%Z -> detect_motion (accel_dict x y z) = Ret "Moving").
Proof.
  intros Hx Hy Hz. rewrite (detect_motion_int16 x y z Hx Hy Hz).
  destruct (pairwise_squares_spread x y z) as [Hup Hlo].
  assert (Hs0 : (0 <= spread x y z)%Z) by (unfold spread; lia).
  destruct (Z.ltb_spec 450 (pairwise_squares x y z)) as [Hgt|Hle];
    split; intros Hs; try reflexivity; exfalso; nia.
Qed.

Lemma detect_motion_spread_witness :
  detect_motion (accel_dict 100 115 107) = Ret "Stationary"
  /\ detect_motion (accel_dict 100 118 109) = Ret "Moving".
Proof.
  split.
  - apply (proj1 (detect_motion_spread 100 115 107
                    ltac:(unfold in_int16; lia) ltac:(unfold in_int16; lia)
                    ltac:(unfold in_int16; lia))). vm_compute. discriminate.
  - apply (proj2 (detect_motion_spread 100 118 109
                    ltac:(unfold in_int16; lia) ltac:(unfold in_int16; lia)
                    ltac:(unfold in_int16; lia))). vm_compute. discriminate.
Defined.

(* ================================================================= *)
(** * The classifier on arbitrary arguments *)






(* ================================================================= *)
(** * Dispatch: what a packet leads to *)

Lemma parse_accelerometer_data_long (value : bytes) :
  19 <= List.length value ->
  parse_accelerometer_data value
  = Ret (accel_dict (s16_be value 13) (s16_be value 15) (s16_be value 17)).
Proof.
  intros H. now rewrite parse_accelerometer_data_decode, decode_accelerometer_long.
Qed.

Lemma parse_accelerometer_data_too_short (value : bytes) :
  List.length value < 19 -> parse_accelerometer_data value = Ret PyNone.
Proof.
  intros H. rewrite parse_accelerometer_data_decode.
  unfold decode_accelerometer, ACCEL_MIN_LENGTH.
  destruct (Nat.ltb_spec (List.length value) 19); [reflexivity|lia].
Qed.

Lemma decode_ibeacon_too_short (value : bytes) :
  List.length value < 28 -> decode_ibeacon value = None.
Proof.
  intros H. unfold decode_ibeacon, IBEACON_MIN_LENGTH.
  destruct (Nat.ltb_spec (List.length value) 28); [reflexivity|lia].
Qed.

Lemma process_packet_long (value : bytes) :
  19 <= List.length value ->
  process_packet value
  = ([Call_parse_accelerometer_data;
      Print_accelerometer_data
        (accel_dict (s16_be value 13) (s16_be value 15) (s16_be value 17));
      Call_detect_motion;
      Print_motion_status
        (if (450 <? pairwise_squares (s16_be value 13) (s16_be value 15)
                      (s16_be value 17))%Z
         then "Moving" else "Stationary")], Ret tt).
Proof.
  intros H.
  destruct (process_packet_accelerometer value _ _ _
              (parse_accelerometer_data_long value H)) as (status & Hs & Hp).
  rewrite detect_motion_int16 in Hs by apply s16_be_in_int16.
  injection Hs as <-. exact Hp.
Qed.

Lemma process_packet_short_eq (value : bytes) :
  List.length value < 19 ->
  process_packet value
  = ([Call_parse_accelerometer_data; Print_no_accelerometer_data;
      Call_parse_ibeacon_data; Print_failed_ibeacon], Ret tt).
Proof.
  intros H.
  rewrite (process_packet_fallback value (parse_accelerometer_data_too_short value H)).
  now rewrite decode_ibeacon_too_short by lia.
Qed.

(** X10.  What the [try] bodies of the decoders raise.  The body of the
    accelerometer decoder raises exactly on packets shorter than 19
    bytes, and then the [ValueError] of its own length check: [int]
    never fails on the slices and no [IndexError] arises.  The body of
    the iBeacon decoder never raises, so its handler is never entered. *)
Theorem decoder_bodies_raise (packet : bytes) :
  (parse_accelerometer_data_try packet = Raise ValueError
   <-> List.length packet < 19)
  /\ (forall e, parse_accelerometer_data_try packet = Raise e -> e = ValueError)
  /\ (forall e, parse_ibeacon_data_try packet <> Raise e)
  /\ parse_ibeacon_data packet = parse_ibeacon_data_try packet.
Proof.
  assert (Ha : parse_accelerometer_data_try packet
               = if (List.length packet <? 19)%nat then Raise ValueError
                 else Ret (accel_dict (to_signed16 (u16_be packet 13))
                             (to_signed16 (u16_be packet 15))
                             (to_signed16 (u16_be packet 17)))).
  { unfold parse_accelerometer_data_try.
    rewrite (hex_guard_at packet 38 19) by offsets.
    destruct (Nat.ltb_spec (List.length packet) 19); [reflexivity|].
    rewrite (int_base16_slice_at packet 26 30 13) by offsets.
    rewrite (int_base16_slice_at packet 30 34 15) by offsets.
    rewrite (int_base16_slice_at packet 34 38 17) by offsets.
    reflexivity. }
  assert (Hi : exists v, parse_ibeacon_data_try packet = Ret v).
  { unfold parse_ibeacon_data_try.
    rewrite (hex_guard_at packet 56 28) by offsets.
    destruct (Nat.ltb_spec (List.length packet) 28); [now eexists|].
    rewrite (slice_truthy_at packet 48 52 24) by offsets.
    rewrite (slice_truthy_at packet 52 56 26) by offsets.
    rewrite (int_base16_slice_at packet 48 52 24) by offsets.
    rewrite (int_base16_slice_at packet 52 56 26) by offsets.
    now eexists. }
  rewrite Ha. destruct (Nat.ltb_spec (List.length packet) 19) as [Hlt|Hge].
  - split; [tauto|]. split; [intros e H; now injection H|].
    destruct Hi as [v Hv]. rewrite Hv.
    split; [discriminate|]. unfold parse_ibeacon_data. now rewrite Hv.
  - split; [split; [discriminate|lia]|]. split; [discriminate|].
    destruct Hi as [v Hv]. rewrite Hv.
    split; [discriminate|]. unfold parse_ibeacon_data. now rewrite Hv.
Qed.

Lemma decoder_bodies_raise_witness :
  parse_accelerometer_data_try packet_18 = Raise ValueError
  /\ parse_ibeacon_data_try packet_27 <> Raise ValueError.
Proof.
  split.
  - apply (proj2 (proj1 (decoder_bodies_raise packet_18))). simpl. lia.
  - apply (proj1 (proj2 (proj2 (decoder_bodies_raise packet_27)))).
Defined.

(** X11.  A payload of at least 19 bytes is always classified: the
    dispatch prints the decoded sample, whose axes are 16-bit values,
    and then "Moving" or "Stationary", never "Error", "Moving" exactly
    when the squared differences of the axes sum to more than 450. *)
Theorem process_packet_classifies (value : bytes) :
  19 <= List.length value ->
  exists x y z,
    in_int16 x /\ in_int16 y /\ in_int16 z
    /\ parse_accelerometer_data value = Ret (accel_dict x y z)
    /\ process_packet value
       = ([Call_parse_accelerometer_data;
           Print_accelerometer_data (accel_dict x y z);
           Call_detect_motion;
           Print_motion_status
             (if (450 <? (x - y) * (x - y) + (y - z) * (y - z) + (z - x) * (z - x))%Z
              then "Moving" else "Stationary")], Ret tt).
Proof.
  intros H.
  exists (s16_be value 13), (s16_be value 15), (s16_be value 17).
  repeat split; try apply s16_be_in_int16.
  - now apply parse_accelerometer_data_long.
  - now apply process_packet_long.
Qed.

Lemma process_packet_classifies_witness :
  exists x y z,
    in_int16 x /\ in_int16 y /\ in_int16 z
    /\ parse_accelerometer_data packet_19 = Ret (accel_dict x y z)
    /\ process_packet packet_19
       = ([Call_parse_accelerometer_data;
           Print_accelerometer_data (accel_dict x y z);
           Call_detect_motion;
           Print_motion_status
             (if (450 <? (x - y) * (x - y) + (y - z) * (y - z) + (z - x) * (z - x))%Z
              then "Moving" else "Stationary")], Ret tt).
Proof.
  apply (process_packet_classifies packet_19). simpl. lia.
Defined.



(* ================================================================= *)
(** * The scan loop *)

Lemma process_packet_returns (value : bytes) : snd (process_packet value) = Ret tt.
Proof.
  destruct (Nat.lt_ge_cases (List.length value) 19) as [H|H].
  - now rewrite process_packet_short_eq.
  - now rewrite process_packet_long.
Qed.

Lemma process_manufacturer_entry_eq (d : device) (entry : Z * bytes) :
  process_manufacturer_entry d entry = (packet_trace d (snd entry), Ret tt).
Proof.
  unfold process_manufacturer_entry, packet_trace, lift_packet, semit, sbind.
  now rewrite process_packet_returns.
Qed.

Lemma for_each_entries (d : device) (entries : list (Z * bytes)) :
  for_each (process_manufacturer_entry d) entries
  = (flat_map (packet_trace d) (map snd entries), Ret tt).
Proof.
  induction entries as [|entry entries IH]; [reflexivity|].
  cbn [for_each map flat_map]. rewrite process_manufacturer_entry_eq, IH.
  reflexivity.
Qed.

Lemma process_device_ok (d : device) :
  has_advertisement d = true -> process_device d = (device_trace d, Ret tt).
Proof.
  intros H. unfold process_device, device_trace, device_packets.
  assert (Hadv : exists a, advertisement_of d = Ret a).
  { unfold advertisement_of, has_advertisement in *.
    destruct (device_advertisement d); [eauto|].
    destruct (device_metadata d); [eauto|discriminate]. }
  destruct Hadv as [a Ha]. rewrite Ha.
  unfold semit, lift_result, sbind.
  destruct (manufacturer_data_of a) as [|entry entries] eqn:E.
  - reflexivity.
  - cbn [List.length Nat.eqb negb]. rewrite for_each_entries. reflexivity.
Qed.

Lemma process_device_bare (d : device) :
  has_advertisement d = false ->
  process_device d
  = ([Print_found_device (device_name d) (device_address d)], Raise AttributeError).
Proof.
  intros H. unfold process_device, advertisement_of, has_advertisement in *.
  destruct (device_advertisement d); [discriminate|].
  destruct (device_metadata d); [discriminate|]. reflexivity.
Qed.

Lemma for_each_devices (ds : list device) :
  forallb has_advertisement ds = true ->
  for_each process_device ds = (flat_map device_trace ds, Ret tt).
Proof.
  induction ds as [|d ds IH]; [reflexivity|].
  cbn [forallb]. intros H. apply andb_true_iff in H as [Hd Hds].
  cbn [for_each flat_map]. rewrite (process_device_ok d Hd), (IH Hds).
  reflexivity.
Qed.

Lemma for_each_devices_abort (ds : list device) (bare : device) (rest : list device) :
  forallb has_advertisement ds = true -> has_advertisement bare = false ->
  for_each process_device (ds ++ bare :: rest)%list
  = ((flat_map device_trace ds
      ++ [Print_found_device (device_name bare) (device_address bare)])%list,
     Raise AttributeError).
Proof.
  intros Hds Hb. induction ds as [|d ds IH].
  - cbn [app for_each flat_map]. rewrite (process_device_bare bare Hb). reflexivity.
  - cbn [forallb] in Hds. apply andb_true_iff in Hds as [Hd Hds].
    cbn [app for_each flat_map]. rewrite (process_device_ok d Hd), (IH Hds).
    cbn [sbind]. now rewrite app_assoc.
Qed.

Lemma scan_trace_all (devices : list device) :
  forallb has_advertisement devices = true ->
  scan_and_detect (Ret devices)
  = (Print_scanning
     :: match devices with
        | [] => [Print_no_devices]
        | _ => flat_map device_trace devices
        end, Ret tt).
Proof.
  intros H. unfold scan_and_detect, scan_and_detect_try, semit, lift_result, sbind.
  destruct devices as [|d ds]; [reflexivity|].
  cbn [List.length Nat.eqb]. rewrite (for_each_devices _ H). reflexivity.
Qed.

(** X13.  When every discovered device has its advertisement data, the
    scan announces each device and processes each of its payloads, in
    order, and ends without an error; with no device at all it only
    says so. *)
Theorem scan_and_detect_all (devices : list device) :
  forallb has_advertisement devices = true ->
  scan_and_detect (Ret devices)
  = (Print_scanning
     :: match devices with
        | [] => [Print_no_devices]
        | _ => flat_map device_trace devices
        end, Ret tt).
Proof. exact (scan_trace_all devices). Qed.

Lemma scan_and_detect_all_witness :
  scan_and_detect (Ret [device_a; device_b])
  = (Print_scanning :: flat_map device_trace [device_a; device_b], Ret tt).
Proof.
  apply (scan_and_detect_all [device_a; device_b]). reflexivity.
Defined.

Lemma scan_trace_abort (devices : list device) (bare : device)
    (rest : list device) :
  forallb has_advertisement devices = true -> has_advertisement bare = false ->
  scan_and_detect (Ret (devices ++ bare :: rest)%list)
  = ((Print_scanning :: flat_map device_trace devices
      ++ [Print_found_device (device_name bare) (device_address bare);
          Print_scan_error AttributeError])%list, Ret tt).
Proof.
  intros Hds Hb. unfold scan_and_detect, scan_and_detect_try, semit, lift_result, sbind.
  assert (Hlen : (List.length (devices ++ bare :: rest)%list =? 0)%nat = false).
  { rewrite length_app. cbn [List.length]. apply Nat.eqb_neq. lia. }
  rewrite Hlen, (for_each_devices_abort devices bare rest Hds Hb).
  cbn [is_Exception]. cbn [app]. rewrite <- app_assoc. reflexivity.
Qed.

(** X14.  A device that has neither [advertisement] nor [metadata]
    ends the scan: it is announced, the error is printed, and the
    devices after it are not looked at, whatever they are. *)
Theorem scan_and_detect_abort (devices : list device) (bare : device)
    (rest : list device) :
  forallb has_advertisement devices = true -> has_advertisement bare = false ->
  scan_and_detect (Ret (devices ++ bare :: rest)%list)
  = ((Print_scanning :: flat_map device_trace devices
      ++ [Print_found_device (device_name bare) (device_address bare);
          Print_scan_error AttributeError])%list, Ret tt).
Proof. exact (scan_trace_abort devices bare rest). Qed.

Lemma scan_and_detect_abort_witness :
  scan_and_detect (Ret [device_a; device_bare; device_b])
  = ((Print_scanning :: device_trace device_a
      ++ [Print_found_device None "CC:DD"; Print_scan_error AttributeError])%list,
     Ret tt).
Proof.
  exact (scan_and_detect_abort [device_a] device_bare [device_b] eq_refl eq_refl).
Defined.

Lemma count_calls_app (ev : event) (t1 t2 : list scan_event) :
  count_calls ev (t1 ++ t2)%list = count_calls ev t1 + count_calls ev t2.
Proof. unfold count_calls. now rewrite filter_app, length_app. Qed.

Lemma count_calls_packet_trace (d : device) (value : bytes) :
  count_calls Call_parse_accelerometer_data (packet_trace d value) = 1
  /\ count_calls Call_detect_motion (packet_trace d value)
     = (if (19 <=? List.length value)%nat then 1 else 0)
  /\ count_calls Call_parse_ibeacon_data (packet_trace d value)
     = (if (19 <=? List.length value)%nat then 0 else 1).
Proof.
  unfold packet_trace.
  destruct (Nat.leb_spec 19 (List.length value)) as [H|H].
  - rewrite (process_packet_long value H). repeat split; reflexivity.
  - rewrite (process_packet_short_eq value H). repeat split; reflexivity.
Qed.

Lemma count_calls_packets (d : device) (packets : list bytes) :
  count_calls Call_parse_accelerometer_data (flat_map (packet_trace d) packets)
  = List.length packets
  /\ count_calls Call_detect_motion (flat_map (packet_trace d) packets)
     = List.length (filter (fun p => (19 <=? List.length p)%nat) packets)
  /\ count_calls Call_parse_ibeacon_data (flat_map (packet_trace d) packets)
     = List.length (filter (fun p => negb (19 <=? List.length p)%nat) packets).
Proof.
  induction packets as [|p ps (IH1 & IH2 & IH3)]; [repeat split; reflexivity|].
  cbn [flat_map filter]. rewrite !count_calls_app, IH1, IH2, IH3.
  destruct (count_calls_packet_trace d p) as (-> & -> & ->).
  destruct (19 <=? List.length p)%nat; cbn [negb List.length]; lia.
Qed.

Lemma count_calls_cons (ev : event) (sev : scan_event) (tr : list scan_event) :
  count_calls ev (sev :: tr)
  = (if is_event ev sev then 1 else 0) + count_calls ev tr.
Proof. unfold count_calls. cbn [filter]. now destruct (is_event ev sev). Qed.

Lemma count_calls_device_trace (ev : event) (d : device) :
  count_calls ev (device_trace d)
  = count_calls ev (flat_map (packet_trace d) (device_packets d)).
Proof.
  unfold device_trace. rewrite count_calls_cons. now destruct ev.
Qed.

Lemma count_calls_devices (ds : list device) :
  count_calls Call_parse_accelerometer_data (flat_map device_trace ds)
  = List.length (flat_map device_packets ds)
  /\ count_calls Call_detect_motion (flat_map device_trace ds)
     = List.length (filter (fun p => (19 <=? List.length p)%nat)
                      (flat_map device_packets ds))
  /\ count_calls Call_parse_ibeacon_data (flat_map device_trace ds)
     = List.length (filter (fun p => negb (19 <=? List.length p)%nat)
                      (flat_map device_packets ds)).
Proof.
  induction ds as [|d ds (IH1 & IH2 & IH3)]; [repeat split; reflexivity|].
  cbn [flat_map].
  rewrite !count_calls_app, !count_calls_device_trace, !filter_app, !length_app,
    IH1, IH2, IH3.
  destruct (count_calls_packets d (device_packets d)) as (-> & -> & ->).
  repeat split; reflexivity.
Qed.

(** X15.  In a scan where every device has its advertisement data, the
    accelerometer decoder is called once per payload, the classifier
    once per payload of at least 19 bytes, and the iBeacon decoder once
    per shorter payload. *)
Theorem scan_and_detect_calls (devices : list device) :
  forallb has_advertisement devices = true ->
  let trace := fst (scan_and_detect (Ret devices)) in
  let payloads := flat_map device_packets devices in
  let long p := (19 <=? List.length p)%nat in
  count_calls Call_parse_accelerometer_data trace = List.length payloads
  /\ count_calls Call_detect_motion trace = List.length (filter long payloads)
  /\ count_calls Call_parse_ibeacon_data trace
     = List.length (filter (fun p => negb (long p)) payloads).
Proof.
  intros H. cbv zeta. rewrite (scan_trace_all devices H). cbn [fst].
  destruct devices as [|d ds]; [repeat split; reflexivity|].
  rewrite !count_calls_cons. exact (count_calls_devices (d :: ds)).
Qed.

Lemma scan_and_detect_calls_witness :
  count_calls Call_parse_accelerometer_data
    (fst (scan_and_detect (Ret [device_a; device_b]))) = 3
  /\ count_calls Call_detect_motion
       (fst (scan_and_detect (Ret [device_a; device_b]))) = 2
  /\ count_calls Call_parse_ibeacon_data
       (fst (scan_and_detect (Ret [device_a; device_b]))) = 1.
Proof.
  exact (scan_and_detect_calls [device_a; device_b] eq_refl).
Defined.




